(** * Dosage engine and local interaction matcher of [gen.py]

    A shallow embedding of the dose calculator, the maximum-dose adjuster,
    the weight estimator, the dosage recommender and the local
    interaction matcher, with the properties of their specification;
    and of their callers in the dosage tab and the interaction tab of
    [main], the conversation history, the follow-up questions and the
    alternatives, with properties read off the code.

    Conventions of the embedding.
    - A Python [str] is its UTF-8 encoding, a Rocq [string]; the en dash of
      the dose texts is the three bytes 226 128 147.  The classes [\d] and
      [\s] of the patterns are the ASCII digits and the ASCII white space;
      [str.lower] is the ASCII lower-casing and [str.strip] removes the
      ASCII white space.  This is what Python does on a text of ASCII
      characters and en dashes, a [plain] text; outside ASCII Python
      knows more digits, white space and capital letters, so a property
      of every text is stated for the plain texts.
    - A Python [float] is an IEEE 754 binary64 value, a [spec_float] with
      precision 53 and maximal exponent 1024; products, quotients and
      comparisons are the correctly rounded ones of [SpecFloat].  A Python
      [int] that meets a [float] is converted first.
    - A Python [int] is a [Z]; [int()] of Python refuses more than 4300
      digits, so a property that reads an integer from any text is stated
      for the texts of at most 4300 characters.
    - An exception of [float()] or [int()] is the [Raise] result.
    - An offset into a text counts bytes; the program uses the offsets of
      [str.find] only to cut the text they were found in, after an ASCII
      text, so that the cut is the one Python makes.
    - The similarity score of the rapidfuzz library and the order in which
      a Python set yields its elements are parameters. *)

From Stdlib Require Import ZArith QArith Lia Bool Ascii String DecimalString.
From Stdlib Require Import SpecFloat.
From stdpp Require Import gmap strings list.

Local Open Scope Z_scope.

(** ** Results of fallible code *)

Inductive exn : Type := ValueError | TypeError.

Inductive result (A : Type) : Type :=
| Ok (a : A)
| Raise (e : exn).
Arguments Ok {A} a.
Arguments Raise {A} e.

Definition bind {A B} (x : result A) (f : A → result B) : result B :=
  match x with
  | Ok a => f a
  | Raise e => Raise e
  end.

Notation "'let!' x ':=' e1 'in' e2" := (bind e1 (fun x => e2))
  (at level 10, x name, e1 at level 100, e2 at level 200).

(** ** Strings *)

Module Str.

Fixpoint all (p : ascii → bool) (s : string) : bool :=
  match s with
  | EmptyString => true
  | String c s' => p c && all p s'
  end.

(** [starts p s]: the first character of [s] is in the class [p]. *)
Definition starts (p : ascii → bool) (s : string) : bool :=
  match s with
  | EmptyString => false
  | String c _ => p c
  end.

Fixpoint take (n : nat) (s : string) : string :=
  match n, s with
  | S n', String c s' => String c (take n' s')
  | _, _ => EmptyString
  end.

Fixpoint drop (n : nat) (s : string) : string :=
  match n, s with
  | S n', String _ s' => drop n' s'
  | _, _ => s
  end.

(** [strip t s = Some r] when [s] is [t] followed by [r]. *)
Fixpoint strip (t s : string) : option string :=
  match t, s with
  | EmptyString, _ => Some s
  | String a t', String b s' => if Ascii.eqb a b then strip t' s' else None
  | String _ _, EmptyString => None
  end.

(** [s.find(sub)]: the index of the first occurrence, or -1. *)
Fixpoint find_from (i : Z) (sub s : string) : Z :=
  match strip sub s with
  | Some _ => i
  | None =>
      match s with
      | EmptyString => -1
      | String _ s' => find_from (i + 1) sub s'
      end
  end.

Definition find (s sub : string) : Z := find_from 0 sub s.

Definition len (s : string) : Z := Z.of_nat (String.length s).

(** [s[i:]], with Python's reading of a negative index. *)
Definition slice_from (s : string) (i : Z) : string :=
  let i' := if i <? 0 then Z.max 0 (i + len s) else i in
  drop (Z.to_nat i') s.

Definition lower_char (c : ascii) : ascii :=
  let n := nat_of_ascii c in
  if ((65 <=? n) && (n <=? 90))%nat then ascii_of_nat (n + 32) else c.

Fixpoint lower (s : string) : string :=
  match s with
  | EmptyString => EmptyString
  | String c s' => String (lower_char c) (lower s')
  end.

Definition is_digit (c : ascii) : bool :=
  let n := nat_of_ascii c in ((48 <=? n) && (n <=? 57))%nat.

Definition is_space (c : ascii) : bool :=
  let n := nat_of_ascii c in
  (((9 <=? n) && (n <=? 13)) || ((28 <=? n) && (n <=? 32)))%nat.

Definition digit_value (c : ascii) : Z := Z.of_nat (nat_of_ascii c) - 48.

(** The number written by a string of decimal digits, after [acc]. *)
Fixpoint digits_value (acc : Z) (s : string) : Z :=
  match s with
  | EmptyString => acc
  | String c s' => digits_value (10 * acc + digit_value c) s'
  end.

Definition of_N (n : N) : string := NilZero.string_of_uint (N.to_uint n).

(** [str(z)] of an [int]. *)
Definition of_Z (z : Z) : string :=
  match z with
  | Zneg p => "-" +:+ of_N (Npos p)
  | _ => of_N (Z.to_N z)
  end.

Fixpoint zeros (n : nat) : string :=
  match n with
  | O => EmptyString
  | S n' => String "0" (zeros n')
  end.

End Str.

(** ** Binary64 numbers *)

Module F.

Definition float : Type := spec_float.

Definition prec : Z := 53.
Definition emax : Z := 1024.

Definition mul : float → float → float := SFmul prec emax.
Definition div : float → float → float := SFdiv prec emax.
Definition eqb : float → float → bool := SFeqb.
Definition ltb : float → float → bool := SFltb.
Definition leb : float → float → bool := SFleb.
(** [x >= y] *)
Definition geb (x y : float) : bool := SFleb y x.

(** The binary64 value nearest to [p / q], ties to even, for [0 <= p]
    and [0 < q]: the value of a decimal literal. *)
Definition of_ratio (p q : Z) : float :=
  match p with
  | Z0 => S754_zero false
  | _ =>
      let '(mz, ez, lz) := SFdiv_core_binary prec emax p 0 q 0 in
      binary_round_aux prec emax false mz ez lz
  end.

(** The conversion of an [int]. *)
Definition of_Z (z : Z) : float := binary_normalize prec emax z 0 false.

(** [n / d] rounded to the nearest integer, ties to even ([0 < d]). *)
Definition round_half_even (n d : Z) : Z :=
  let q := n / d in
  match (2 * (n mod d)) ?= d with
  | Lt => q
  | Gt => q + 1
  | Eq => if Z.even q then q else q + 1
  end.

(** The magnitude [m * 2^e], times [10^d], rounded to an integer. *)
Definition scaled (d : nat) (m : positive) (e : Z) : Z :=
  match e with
  | Zneg p => round_half_even (Zpos m * 10 ^ Z.of_nat d) (2 ^ Zpos p)
  | _ => Zpos m * 2 ^ e * 10 ^ Z.of_nat d
  end.

Definition sign (s : bool) : string := if s then "-" else "".

(** The digits of [n / 10^d] with [d] decimal places. *)
Definition fixed_digits (d : nat) (n : Z) : string :=
  let p := 10 ^ Z.of_nat d in
  let ip := Str.of_N (Z.to_N (n / p)) in
  match d with
  | O => ip
  | _ =>
      let fp := Str.of_N (Z.to_N (n mod p)) in
      ip +:+ "." +:+ Str.zeros (d - String.length fp) +:+ fp
  end.

(** [format(x, ".<d>f")] *)
Definition format_fixed (d : nat) (x : float) : string :=
  match x with
  | S754_nan => "nan"
  | S754_infinity s => sign s +:+ "inf"
  | S754_zero s => sign s +:+ fixed_digits d 0
  | S754_finite s m e => sign s +:+ fixed_digits d (scaled d m e)
  end.

(** [float(s)] on the texts the patterns capture: digits, then
    optionally a point and digits.  Python's [float] reads more texts
    than these; here every other text raises, so that a proof that no
    exception escapes does not lean on them. *)
Fixpoint split_point (s : string) : string * option string :=
  match s with
  | EmptyString => (EmptyString, None)
  | String c s' =>
      if Ascii.eqb c "." then (EmptyString, Some s')
      else let '(a, b) := split_point s' in (String c a, b)
  end.

Definition nonempty_digits (s : string) : bool :=
  negb (String.eqb s "") && Str.all Str.is_digit s.

Definition of_string (s : string) : result float :=
  match split_point s with
  | (ip, None) =>
      if nonempty_digits ip then Ok (of_ratio (Str.digits_value 0 ip) 1)
      else Raise ValueError
  | (ip, Some fp) =>
      if nonempty_digits ip && nonempty_digits fp
      then Ok (of_ratio (Str.digits_value 0 (ip +:+ fp))
                        (10 ^ Z.of_nat (String.length fp)))
      else Raise ValueError
  end.

End F.

(** [int(s)] on a text of decimal digits; every other text raises here.
    The interpreter's bound on the length of a decimal text is not part
    of the model. *)
Definition int_of_string (s : string) : result Z :=
  if F.nonempty_digits s then Ok (Str.digits_value 0 s) else Raise ValueError.

(** ** Regular expressions

    The fragment of Python's [re] that the patterns of the program use,
    with the matching order of a backtracking matcher: a repetition takes
    as much as it can and gives back one character at a time, an
    alternation tries its branches from left to right, an optional part
    is tried before it is skipped. *)

Module Re.

Inductive regex : Type :=
| Lit (t : string)               (* the text [t] *)
| Star (p : ascii → bool)        (* [c*] for a character class [c] *)
| Plus (p : ascii → bool)        (* [c+] *)
| Seq (r1 r2 : regex)            (* [r1 r2] *)
| Alt (r1 r2 : regex)            (* [r1|r2] *)
| Opt (r : regex)                (* [r?] *)
| Group (n : nat) (r : regex).   (* [(r)], the [n]-th group *)

(** The groups that took part in the match, the latest first. *)
Definition groups : Type := list (nat * string).

Fixpoint lookup (n : nat) (g : groups) : option string :=
  match g with
  | [] => None
  | (k, v) :: g' => if Nat.eqb n k then Some v else lookup n g'
  end.

(** The part of [s] read before the rest [s'] was reached. *)
Definition consumed (s s' : string) : string :=
  Str.take (String.length s - String.length s') s.

Section Matcher.
Context {A : Type}.

Fixpoint star (p : ascii → bool) (s : string)
    (k : string → option A) : option A :=
  match s with
  | String c s' =>
      if p c then
        match star p s' k with
        | Some x => Some x
        | None => k s
        end
      else k s
  | EmptyString => k s
  end.

Fixpoint matchk (r : regex) (s : string) (g : groups)
    (k : string → groups → option A) : option A :=
  match r with
  | Lit t =>
      match Str.strip t s with
      | Some s' => k s' g
      | None => None
      end
  | Star p => star p s (fun s' => k s' g)
  | Plus p =>
      match s with
      | String c s' => if p c then star p s' (fun s'' => k s'' g) else None
      | EmptyString => None
      end
  | Seq r1 r2 => matchk r1 s g (fun s' g' => matchk r2 s' g' k)
  | Alt r1 r2 =>
      match matchk r1 s g k with
      | Some x => Some x
      | None => matchk r2 s g k
      end
  | Opt r1 =>
      match matchk r1 s g k with
      | Some x => Some x
      | None => k s g
      end
  | Group n r1 =>
      matchk r1 s g (fun s' g' => k s' ((n, consumed s s') :: g'))
  end.
End Matcher.

(** A match object: where the match starts, its groups, and the text
    after its end. *)
Record re_match : Type := MkMatch {
  m_start : nat;
  m_groups : groups;
  m_rest : string
}.

(** [m.group(n)], [None] for a group that took no part. *)
Definition group (n : nat) (m : re_match) : option string :=
  lookup n (m_groups m).

Definition match_at (r : regex) (i : nat) (s : string) : option re_match :=
  matchk r s [] (fun rest g => Some (MkMatch i g rest)).

Fixpoint search_from (r : regex) (i : nat) (s : string) : option re_match :=
  match match_at r i s with
  | Some m => Some m
  | None =>
      match s with
      | EmptyString => None
      | String _ s' => search_from r (S i) s'
      end
  end.

(** [re.search(r, s)]: the match at the leftmost position that has one. *)
Definition search (r : regex) (s : string) : option re_match :=
  search_from r 0 s.

(** The texts a pattern denotes. *)
Fixpoint lang (r : regex) (w : string) : Prop :=
  match r with
  | Lit t => w = t
  | Star p => Str.all p w = true
  | Plus p => w ≠ "" ∧ Str.all p w = true
  | Seq r1 r2 => ∃ w1 w2, w = w1 +:+ w2 ∧ lang r1 w1 ∧ lang r2 w2
  | Alt r1 r2 => lang r1 w ∨ lang r2 w
  | Opt r1 => w = "" ∨ lang r1 w
  | Group _ r1 => lang r1 w
  end.

(** [s] has an occurrence of the pattern that starts at offset [i]. *)
Definition occurs_at (r : regex) (i : nat) (s : string) : Prop :=
  ∃ pre w rest, s = pre +:+ w +:+ rest ∧ String.length pre = i ∧ lang r w.

Definition occurs (r : regex) (s : string) : Prop :=
  ∃ i, occurs_at r i s.

End Re.

(** ** The patterns of the program *)

Definition endash : string := "–".

(** [\d+(\.\d+)?] as group [n], its fraction as group [n + 1] *)
Definition number_re (n : nat) : Re.regex :=
  Re.Group n (Re.Seq (Re.Plus Str.is_digit)
    (Re.Opt (Re.Group (S n) (Re.Seq (Re.Lit ".") (Re.Plus Str.is_digit))))).

(** [(mg|mcg|g)] as group [n] *)
Definition unit_re (n : nat) : Re.regex :=
  Re.Group n (Re.Alt (Re.Lit "mg") (Re.Alt (Re.Lit "mcg") (Re.Lit "g"))).

(** [(\d+(\.\d+)?)\s*(mg|mcg|g)] *)
Definition max_re : Re.regex :=
  Re.Seq (number_re 1) (Re.Seq (Re.Star Str.is_space) (unit_re 3)).

(** [(\d+(\.\d+)?)(–(\d+(\.\d+)?))?\s*(mg|mcg|g)/kg] *)
Definition per_kg_re : Re.regex :=
  Re.Seq (number_re 1)
    (Re.Seq (Re.Opt (Re.Group 3 (Re.Seq (Re.Lit endash) (number_re 4))))
      (Re.Seq (Re.Star Str.is_space)
        (Re.Seq (unit_re 6) (Re.Lit "/kg")))).

(** [(\d+)(–(\d+))?\s*(mg|mcg|g)] *)
Definition range_re : Re.regex :=
  Re.Seq (Re.Group 1 (Re.Plus Str.is_digit))
    (Re.Seq (Re.Opt (Re.Group 2
               (Re.Seq (Re.Lit endash) (Re.Group 3 (Re.Plus Str.is_digit)))))
      (Re.Seq (Re.Star Str.is_space) (unit_re 4))).

(** Truth of [m.group(n)]: set and not empty. *)
Definition group_true (n : nat) (m : Re.re_match) : bool :=
  match Re.group n m with
  | Some t => negb (String.eqb t "")
  | None => false
  end.

(** [m.group(n)] where a text is needed: a group that took no part is
    [None], on which the conversions raise. *)
Definition group_str (n : nat) (m : Re.re_match) : result string :=
  match Re.group n m with
  | Some t => Ok t
  | None => Raise TypeError
  end.

(** [float(m.group(n))] *)
Definition group_float (n : nat) (m : Re.re_match) : result F.float :=
  let! t := group_str n m in F.of_string t.

(** [int(m.group(n))] *)
Definition group_int (n : nat) (m : Re.re_match) : result Z :=
  let! t := group_str n m in int_of_string t.

(** ** The dosage engine *)

(** [adjust_max_for_age_weight(max_str, age, weight)] *)
Definition adjust_max_for_age_weight (max_str : string)
    (age weight : F.float) : result string :=
  match Re.search max_re max_str with
  | None => Ok max_str
  | Some m =>
      let! value := group_float 1 m in
      let! original_unit := group_str 3 m in
      let '(value, unit) :=
        if String.eqb original_unit "g"
        then (F.mul value (F.of_Z 1000), "mg")
        else (value, original_unit) in
      let value :=
        if F.geb age (F.of_Z 80) then F.mul value (F.of_ratio 6 10)
        else if F.geb age (F.of_Z 65) then F.mul value (F.of_ratio 75 100)
        else value in
      let value :=
        if F.ltb weight (F.of_Z 50) then F.mul value (F.of_ratio 75 100)
        else value in
      if String.eqb original_unit "g"
         || (String.eqb unit "mg" && F.geb value (F.of_Z 1000))
      then Ok (F.format_fixed 1 (F.div value (F.of_Z 1000))
               +:+ " g/day (adjusted)")
      else Ok (F.format_fixed 0 value +:+ " " +:+ unit +:+ "/day (adjusted)")
  end.

(** [calculate_dose(dose_str, weight, age)] *)
Definition calculate_dose (dose_str : string)
    (weight age : F.float) : result string :=
  match Re.search per_kg_re dose_str with
  | Some m =>
      let! low := group_float 1 m in
      let! high := if group_true 4 m then group_float 4 m else Ok low in
      let! unit := group_str 6 m in
      let dose_low := F.mul low weight in
      let dose_high := F.mul high weight in
      let calc_dose :=
        if F.eqb dose_low dose_high
        then F.format_fixed 1 dose_low +:+ " " +:+ unit
        else F.format_fixed 1 dose_low +:+ endash
             +:+ F.format_fixed 1 dose_high +:+ " " +:+ unit in
      let suffix :=
        Str.slice_from dose_str
          (Str.find dose_str (unit +:+ "/kg") + Str.len unit + 3) in
      Ok (calc_dose +:+ suffix)
  | None =>
      match Re.search range_re dose_str with
      | Some m =>
          let! low := group_int 1 m in
          let! high := if group_true 3 m then group_int 3 m else Ok low in
          let! unit := group_str 4 m in
          let chosen :=
            if F.geb age (F.of_Z 65) then low else (low + high) / 2 in
          let suffix :=
            Str.slice_from dose_str (Str.find dose_str unit + Str.len unit) in
          Ok (Str.of_Z chosen +:+ " " +:+ unit +:+ suffix)
      | None => Ok dose_str
      end
  end.

(** [estimate_weight_by_age(age_years)] *)
Definition estimate_weight_by_age (age_years : F.float) : F.float :=
  if F.ltb age_years (F.of_ratio 1 10) then F.of_ratio 40 10
  else if F.ltb age_years (F.of_Z 1) then F.of_ratio 80 10
  else if F.ltb age_years (F.of_Z 5) then F.of_ratio 150 10
  else if F.ltb age_years (F.of_Z 12) then F.of_ratio 350 10
  else F.of_ratio 700 10.

(** One age band of one drug; [max] is read with [rule.get("max", "")]. *)
Record DoseRule : Type := MkRule {
  age_min : F.float;
  age_max : F.float;
  dose : string;
  max : option string
}.

Definition rule (lo hi : F.float) (d m : string) : DoseRule :=
  MkRule lo hi d (Some m).

Definition medications_items : list (string * list DoseRule) :=
  let n := F.of_Z in
  [ ("paracetamol",
      [ rule (n 0) (n 1) "10 mg/kg every 6h" "40 mg/kg/day";
        rule (n 1) (n 12) "15 mg/kg every 6h" "60 mg/kg/day";
        rule (n 12) (n 200) "500–1000 mg every 6h" "4 g/day" ]);
    ("ibuprofen",
      [ rule (F.of_ratio 5 10) (n 1) "5 mg/kg every 8h" "40 mg/kg/day";
        rule (n 1) (n 12) "10 mg/kg every 6–8h" "40 mg/kg/day";
        rule (n 12) (n 200) "200–400 mg every 6h" "1200 mg/day (OTC)" ]);
    ("amoxicillin",
      [ rule (n 0) (n 1) "20 mg/kg/day divided 3 doses" "30 mg/kg/day";
        rule (n 1) (n 12) "25–50 mg/kg/day in 2–3 doses" "90 mg/kg/day";
        rule (n 12) (n 200) "500 mg every 8h" "3 g/day" ]);
    ("azithromycin",
      [ rule (n 1) (n 12) "10 mg/kg once daily" "500 mg";
        rule (n 12) (n 200) "500 mg day 1, then 250 mg daily" "1.5 g/course" ]);
    ("aspirin",
      [ rule (n 12) (n 200) "75–325 mg once daily" "4 g/day" ]);
    ("metformin",
      [ rule (n 10) (n 18) "500 mg twice daily" "2 g/day";
        rule (n 18) (n 200) "500–1000 mg twice daily" "2.5 g/day" ]);
    ("omeprazole",
      [ rule (n 1) (n 12) "0.7–3.5 mg/kg/day" "20 mg/day";
        rule (n 12) (n 200) "20–40 mg daily" "40 mg/day" ]);
    ("prednisone",
      [ rule (n 1) (n 12) "0.5–2 mg/kg/day" "60 mg/day";
        rule (n 12) (n 200) "5–60 mg daily" "80 mg/day" ]);
    ("ciprofloxacin",
      [ rule (n 1) (n 12) "10 mg/kg every 12h" "500 mg/dose";
        rule (n 12) (n 200) "500–750 mg every 12h" "1500 mg/day" ]);
    ("levothyroxine",
      [ rule (n 0) (n 1) "10–15 mcg/kg/day" "50 mcg/day";
        rule (n 1) (n 12) "4–6 mcg/kg/day" "100 mcg/day";
        rule (n 12) (n 200) "50–200 mcg/day" "200 mcg/day" ]);
    ("atorvastatin",
      [ rule (n 10) (n 18) "10–20 mg daily" "20 mg/day";
        rule (n 18) (n 200) "10–80 mg daily" "80 mg/day" ]);
    ("lisinopril",
      [ rule (n 6) (n 16) "0.07 mg/kg once daily" "5 mg/day";
        rule (n 16) (n 200) "5–40 mg once daily" "40 mg/day" ]) ].

(** The dictionary [medications]. *)
Definition medications : gmap string (list DoseRule) :=
  list_to_map medications_items.

(** [r["age_min"] <= age_years < r["age_max"]] *)
Definition in_band (age_years : F.float) (r : DoseRule) : bool :=
  F.leb (age_min r) age_years && F.ltb age_years (age_max r).

(** The loop over [rules] that stops at the first band holding the age. *)
Fixpoint first_rule (age_years : F.float) (rules : list DoseRule)
    : option DoseRule :=
  match rules with
  | [] => None
  | r :: rules' => if in_band age_years r then Some r
                   else first_rule age_years rules'
  end.

(** The two error dictionaries, by the data their message is built of. *)
Inductive error_message : Type :=
| NoDosageData (drug_name : string)
| NoDosingRule (drug_name : string) (age_years : F.float).

Record DosageRecommendation : Type := MkRecommendation {
  drug : string;
  age_years : F.float;
  weight_kg : F.float;
  dosage : string;
  max_per_day : string
}.

(** The dictionary that [recommend_dose] returns. *)
Inductive reply : Type :=
| Error (e : error_message)
| Recommendation (r : DosageRecommendation).

(** [recommend_dose(drug_name, age_years, weight_kg=None)] *)
Definition recommend_dose (drug_name : string) (age : F.float)
    (weight : option F.float) : result reply :=
  let key := Str.lower drug_name in
  match medications !! key with
  | None | Some [] => Ok (Error (NoDosageData drug_name))
  | Some rules =>
      match first_rule age rules with
      | None => Ok (Error (NoDosingRule drug_name age))
      | Some r =>
          let weight :=
            match weight with
            | None => estimate_weight_by_age age
            | Some w => w
            end in
          let! dosage := calculate_dose (dose r) weight age in
          let! max_dose_adjusted :=
            adjust_max_for_age_weight (default "" (max r)) age weight in
          Ok (Recommendation
                (MkRecommendation drug_name age weight dosage
                   max_dose_adjusted))
      end
  end.

(** ** The local interaction matcher *)

(** A row of the local table, as the dictionary of its cells; a cell is a
    text, and a missing key is [None]. *)
Record InteractionRecord : Type := MkRecord {
  r_drug_a : option string;
  r_drug_b : option string;
  r_severity : option string;
  r_description : option string;
  r_source : option string
}.

Record MatchedPair : Type := MkPair {
  mp_drug_a : string;
  mp_drug_b : string;
  mp_matched_a : string;
  mp_matched_b : string;
  mp_severity : option string;
  mp_description : option string;
  mp_source : string
}.

(** [itertools.combinations(l, 2)] *)
Fixpoint combinations2 {A : Type} (l : list A) : list (A * A) :=
  match l with
  | [] => []
  | a :: t => map (pair a) t ++ combinations2 t
  end.

(** [str(rec.get(key, "")).lower()] *)
Definition cell_lower (cell : option string) : string :=
  Str.lower (default "" cell).

(** Truth of [mapping.get(a)]: the key is there, its value is not [None]
    and not the empty text. *)
Definition truthy (v : option (option string)) : option string :=
  match v with
  | Some (Some c) => if String.eqb c "" then None else Some c
  | _ => None
  end.

Section Matcher.

(** [fuzz.token_sort_ratio], a score on the scale 0 to 100. *)
Variable token_sort_ratio : string → string → Q.

(** The order in which a set yields its elements. *)
Variable iter_set : gset string → list string.

(** Modelled from the spec: [process.extractOne] of the rapidfuzz
    library, which is not part of the repository, finds the single best
    match of the query among the choices, the first one among equally
    good ones, with its score, and nothing when there is no choice. *)
Fixpoint best_of (query : string) (choices : list string)
    (best : option (string * Q)) : option (string * Q) :=
  match choices with
  | [] => best
  | c :: choices' =>
      let sc := token_sort_ratio query c in
      match best with
      | Some (_, b) =>
          if Qle_bool sc b then best_of query choices' best
          else best_of query choices' (Some (c, sc))
      | None => best_of query choices' (Some (c, sc))
      end
  end.

Definition extractOne (query : string) (choices : list string)
    : option (string * Q) :=
  best_of query choices None.

(** The set [db_drugs] after the loop over the records. *)
Definition db_drugs (local_records : list InteractionRecord) : gset string :=
  fold_left
    (fun acc r =>
       {[ cell_lower (r_drug_b r) ]} ∪ ({[ cell_lower (r_drug_a r) ]} ∪ acc))
    local_records ∅.

(** [db_list = [d for d in db_drugs if d]] *)
Definition db_list (local_records : list InteractionRecord) : list string :=
  filter (fun d => d ≠ "") (iter_set (db_drugs local_records)).

(** The value stored under [d] in [mapping]. *)
Definition resolve (db : list string) (fuzz_threshold : Z) (d : string)
    : option string :=
  match extractOne (Str.lower d) db with
  | Some (c, sc) =>
      if Qle_bool (inject_Z fuzz_threshold) sc then Some c else None
  | None => None
  end.

(** The dictionary [mapping] after the loop over the names. *)
Definition build_mapping (db : list string) (fuzz_threshold : Z)
    (drug_names : list string) : gmap string (option string) :=
  fold_left (fun m d => <[ d := resolve db fuzz_threshold d ]> m)
    drug_names ∅.

(** [(ra == ma and rb == mb) or (ra == mb and rb == ma)] *)
Definition record_matches (ma mb : string) (rec : InteractionRecord) : bool :=
  let ra := cell_lower (r_drug_a rec) in
  let rb := cell_lower (r_drug_b rec) in
  (String.eqb ra ma && String.eqb rb mb)
  || (String.eqb ra mb && String.eqb rb ma).

Definition matched_pair (a b ma mb : string) (rec : InteractionRecord)
    : MatchedPair :=
  MkPair a b ma mb (r_severity rec) (r_description rec)
    (default "local" (r_source rec)).

(** [find_ddi_local(drug_names, local_records, fuzz_threshold)] *)
Definition find_ddi_local (drug_names : list string)
    (local_records : list InteractionRecord) (fuzz_threshold : Z)
    : list MatchedPair :=
  let mapping :=
    build_mapping (db_list local_records) fuzz_threshold drug_names in
  fold_left
    (fun found '(a, b) =>
       match truthy (mapping !! a), truthy (mapping !! b) with
       | Some ma, Some mb =>
           fold_left
             (fun found rec =>
                if record_matches ma mb rec
                then found ++ [matched_pair a b ma mb rec]
                else found)
             local_records found
       | _, _ => found
       end)
    (combinations2 drug_names) [].

End Matcher.

(** ** The properties, in the terms of the specification *)

(** A unit of the patterns. *)
Definition is_unit (u : string) : Prop := u = "mg" ∨ u = "mcg" ∨ u = "g".

(** The text of the optional upper bound: an en dash and the bound. *)
Definition range_text (hi : option string) : string :=
  match hi with
  | Some h => endash +:+ h
  | None => ""
  end.

(** No occurrence of the pattern in [pre +:+ tail] starts inside [pre]:
    an occurrence that starts where [tail] does is the first one. *)
Definition first_at (r : Re.regex) (pre tail : string) : Prop :=
  ∀ p1 p2 w rest,
    pre = p1 +:+ p2 → p2 ≠ "" → p2 +:+ tail = w +:+ rest → ¬ Re.lang r w.

(** The same, decided by running the matcher at each offset of [pre]. *)
Fixpoint first_at_b (r : Re.regex) (pre tail : string) : bool :=
  match pre with
  | EmptyString => true
  | String _ pre' =>
      match Re.match_at r 0 (pre +:+ tail) with
      | Some _ => false
      | None => first_at_b r pre' tail
      end
  end.

(** The text [sub] does not occur in [s] before the offset [n]. *)
Definition not_before (sub s : string) (n : nat) : Prop :=
  ∀ a b, s = a +:+ sub +:+ b → (n <= String.length a)%nat.

(** Specification 4.3: the age factor, one band at most. *)
Definition age_reduction (age : F.float) : option F.float :=
  if F.geb age (F.of_Z 80) then Some (F.of_ratio 6 10)
  else if F.geb age (F.of_Z 65) then Some (F.of_ratio 75 100)
  else None.

(** Specification 4.3: the weight factor. *)
Definition weight_reduction (weight : F.float) : option F.float :=
  if F.ltb weight (F.of_Z 50) then Some (F.of_ratio 75 100) else None.

Definition reduce (factor : option F.float) (v : F.float) : F.float :=
  match factor with
  | Some c => F.mul v c
  | None => v
  end.

(** Specification 4.3: the adjusted maximum for the value [v] read in the
    unit [u]. *)
Definition adjusted_text (v : F.float) (u : string)
    (age weight : F.float) : string :=
  let grams := String.eqb u "g" in
  let unit := if grams then "mg" else u in
  let mg := if grams then F.mul v (F.of_Z 1000) else v in
  let value := reduce (weight_reduction weight) (reduce (age_reduction age) mg) in
  if grams || (String.eqb unit "mg" && F.geb value (F.of_Z 1000))
  then F.format_fixed 1 (F.div value (F.of_Z 1000)) +:+ " g/day (adjusted)"
  else F.format_fixed 0 value +:+ " " +:+ unit +:+ "/day (adjusted)".

(** Specification 4.2, step 1: the scaled dose for the bounds [lo] and
    [hi], one value when the scaled bounds are equal. *)
Definition per_kg_text (lo hi : F.float) (u : string)
    (weight : F.float) : string :=
  let dose_low := F.mul lo weight in
  let dose_high := F.mul hi weight in
  if F.eqb dose_low dose_high
  then F.format_fixed 1 dose_low +:+ " " +:+ u
  else F.format_fixed 1 dose_low +:+ endash
       +:+ F.format_fixed 1 dose_high +:+ " " +:+ u.


(** The matched pairs of one pair of names, one for each record of the
    table that names the two canonical drugs, in either column order. *)
Definition pair_hits (resolved : string → option string)
    (local_records : list InteractionRecord) (ab : string * string)
    : list MatchedPair :=
  match resolved (fst ab), resolved (snd ab) with
  | Some ma, Some mb =>
      map (matched_pair (fst ab) (snd ab) ma mb)
        (filter (fun rec => record_matches ma mb rec = true) local_records)
  | _, _ => []
  end.

(** The text of the optional fraction of a number: a point and digits. *)
Definition frac_text (fp : option string) : string :=
  match fp with
  | Some f => "." +:+ f
  | None => ""
  end.

(** The groups [n] and [n + 1] after [number_re n] read the integer part
    [ip] and the fraction [fp]. *)
Definition number_groups (n : nat) (ip : string) (fp : option string)
    (g : Re.groups) : Re.groups :=
  (n, ip +:+ frac_text fp)
  :: match fp with
     | Some f => (S n, "." +:+ f) :: g
     | None => g
     end.

(** A text before which a number ends: it starts with no digit and with
    no point. *)
Definition number_stop (t : string) : bool :=
  negb (Str.starts (fun c => Str.is_digit c || Ascii.eqb c ".") t).

(** The groups of [per_kg_re] for the bounds [lo] and [hi]. *)
Definition per_kg_groups (ip : string) (fp : option string)
    (hi : option (string * option string)) (u : string) : Re.groups :=
  (6%nat, u)
  :: match hi with
     | Some (hip, hfp) =>
         (3%nat, endash +:+ hip +:+ frac_text hfp)
         :: number_groups 4 hip hfp (number_groups 1 ip fp [])
     | None => number_groups 1 ip fp []
     end.

Definition bound_text (hi : option (string * option string)) : option string :=
  match hi with
  | Some (hip, hfp) => Some (hip +:+ frac_text hfp)
  | None => None
  end.


Definition is_ok {A : Type} (x : result A) : bool :=
  match x with
  | Ok _ => true
  | Raise _ => false
  end.

(** The conversions that [calculate_dose] makes on [dose_str] succeed. *)
Definition dose_reads (dose_str : string) : bool :=
  match Re.search per_kg_re dose_str with
  | Some m =>
      is_ok (group_float 1 m)
      && (if group_true 4 m then is_ok (group_float 4 m) else true)
      && is_ok (group_str 6 m)
  | None =>
      match Re.search range_re dose_str with
      | Some m =>
          is_ok (group_int 1 m)
          && (if group_true 3 m then is_ok (group_int 3 m) else true)
          && is_ok (group_str 4 m)
      | None => true
      end
  end.

(** The conversions that [adjust_max_for_age_weight] makes succeed. *)
Definition max_reads (max_str : string) : bool :=
  match Re.search max_re max_str with
  | Some m => is_ok (group_float 1 m) && is_ok (group_str 3 m)
  | None => true
  end.

(** A score that knows equal texts only, for the examples. *)
Definition exact_score (a b : string) : Q :=
  if String.eqb a b then 100%Q else 0%Q.

(** ** The texts on which the embedding is exact *)

(** A text of ASCII characters and en dashes.  On such a text the classes
    [\d] and [\s] of Python's patterns, [str.lower] and [str.strip] are
    the ASCII ones of this file; on other texts Python also knows the
    digits, the white space and the capital letters outside ASCII. *)
Fixpoint plain (s : string) : bool :=
  match s with
  | EmptyString => true
  | String c s' =>
      if (nat_of_ascii c <? 128)%nat then plain s'
      else
        match s' with
        | String c2 (String c3 s'') =>
            Ascii.eqb c "226" && Ascii.eqb c2 "128" && Ascii.eqb c3 "147"
            && plain s''
        | _ => false
        end
  end.

(** The two drug cells of a record are plain texts. *)
Definition plain_record (r : InteractionRecord) : bool :=
  plain (default "" (r_drug_a r)) && plain (default "" (r_drug_b r)).

(** ** The callers and the other functions of the program *)

(** The groups of [range_re] for the bounds [lo] and [hi]. *)
Definition range_groups (lo : string) (hi : option string) (u : string)
    : Re.groups :=
  (4%nat, u)
  :: match hi with
     | Some h => [(2%nat, endash +:+ h); (3%nat, h); (1%nat, lo)]
     | None => [(1%nat, lo)]
     end.

(** The dose that the absolute branch of [calculate_dose] chooses. *)
Definition chosen_dose (low high : Z) (age : F.float) : Z :=
  if F.geb age (F.of_Z 65) then low else (low + high) / 2.

(** The dosage tab of [main]: [w = weight if weight > 0 else None]. *)
Definition entered_weight (weight : F.float) : option F.float :=
  if F.ltb (F.of_Z 0) weight then Some weight else None.

(** The dosage tab of [main]:
    [rec = recommend_dose(selected_drug, age, weight_kg=w)]. *)
Definition dosage_tab_recommend (selected_drug : string)
    (age weight : F.float) : result reply :=
  recommend_dose selected_drug age (entered_weight weight).

(** The age group indicator of the dosage tab of [main]. *)
Inductive age_group : Type := Infant | Child | Adolescent | Adult | Elderly.

Definition age_group_of (age : F.float) : age_group :=
  if F.ltb age (F.of_Z 1) then Infant
  else if F.ltb age (F.of_Z 12) then Child
  else if F.ltb age (F.of_Z 18) then Adolescent
  else if F.ltb age (F.of_Z 65) then Adult
  else Elderly.

(** [s.split(sep)] for a separator of one character. *)
Fixpoint split_on (sep : ascii) (s : string) : list string :=
  match s with
  | EmptyString => [EmptyString]
  | String c s' =>
      if Ascii.eqb c sep then EmptyString :: split_on sep s'
      else
        match split_on sep s' with
        | h :: t => String c h :: t
        | [] => [String c EmptyString]
        end
  end.

(** [s.lstrip()] *)
Fixpoint lstrip (s : string) : string :=
  match s with
  | EmptyString => EmptyString
  | String c s' => if Str.is_space c then lstrip s' else s
  end.

(** [s.rstrip()] *)
Fixpoint rstrip (s : string) : string :=
  match s with
  | EmptyString => EmptyString
  | String c s' =>
      match rstrip s' with
      | EmptyString => if Str.is_space c then EmptyString
                       else String c EmptyString
      | r => String c r
      end
  end.

(** [s.strip()] *)
Definition strip (s : string) : string := lstrip (rstrip s).

(** [sep.join(l)] *)
Fixpoint join (sep : string) (l : list string) : string :=
  match l with
  | [] => EmptyString
  | [x] => x
  | x :: l' => x +:+ sep +:+ join sep l'
  end.

(** The interaction tab of [main]:
    [[d.strip() for d in drug_input.split(",") if d.strip()]]. *)
Definition parse_drug_list (drug_input : string) : list string :=
  map strip
    (filter (fun d => strip d ≠ "") (split_on "," drug_input)).

(** An entry of the conversation history. *)
Record Exchange : Type := MkExchange {
  ex_timestamp : string;
  ex_user : string;
  ex_assistant : string
}.

(** [l[-n:]] for a positive [n]. *)
Definition last_n {A : Type} (n : nat) (l : list A) : list A :=
  drop (length l - n) l.

(** [add_to_conversation(user_input, ai_response)] on the history of the
    session state; [now] is the time of the call, formatted. *)
Definition add_to_conversation (now : string) (history : list Exchange)
    (user_input ai_response : string) : list Exchange :=
  let history := history ++ [MkExchange now user_input ai_response] in
  if (10 <? length history)%nat then last_n 10 history else history.

(** [sub in s] *)
Definition str_contains (sub s : string) : bool :=
  negb (Str.find s sub =? -1).

Definition dosage_follow_ups : list string :=
  [ "What are the side effects of this medication?";
    "Are there any drug interactions I should be aware of?";
    "How should this medication be stored?" ].

Definition interaction_follow_ups : list string :=
  [ "What are safer alternatives to these medications?";
    "How can I monitor for interaction symptoms?";
    "Should the timing of doses be adjusted?" ].

Definition child_follow_ups : list string :=
  [ "What are the weight-based dosing calculations?";
    "Are there any special considerations for children?";
    "What formulations are available for children?" ].

(** [suggest_follow_up_questions(query, response)] *)
Definition suggest_follow_up_questions (query response : string)
    : list string :=
  let query_lower := Str.lower query in
  let follow_ups := [] in
  let follow_ups :=
    if str_contains "dosage" query_lower || str_contains "dose" query_lower
    then follow_ups ++ dosage_follow_ups else follow_ups in
  let follow_ups :=
    if str_contains "interaction" query_lower
    then follow_ups ++ interaction_follow_ups else follow_ups in
  let follow_ups :=
    if str_contains "child" query_lower
       || str_contains "pediatric" query_lower
    then follow_ups ++ child_follow_ups else follow_ups in
  take 3 follow_ups.

(** The dictionary [ALTERNATIVE_MAP]. *)
Definition ALTERNATIVE_MAP : gmap string (list string) :=
  list_to_map
    [ ("warfarin", ["dabigatran"; "apixaban"; "rivaroxaban"]);
      ("ibuprofen", ["paracetamol"]) ].

(** [suggest_alternatives(drug_name)] *)
Definition suggest_alternatives (drug_name : string) : list string :=
  default [] (ALTERNATIVE_MAP !! Str.lower drug_name).

(** A matched pair with its two sides exchanged. *)
Definition flip_pair (p : MatchedPair) : MatchedPair :=
  MkPair (mp_drug_b p) (mp_drug_a p) (mp_matched_b p) (mp_matched_a p)
    (mp_severity p) (mp_description p) (mp_source p).

(** A text with no character of the class [p]. *)
Definition free_of (p : ascii → bool) (s : string) : bool :=
  Str.all (fun c => negb (p c)) s.

(** The bands of [rules] cover the ages from [lo] to [hi], each band
    starting where the one before ends, or earlier. *)
Fixpoint bands_cover (lo hi : F.float) (rules : list DoseRule) : bool :=
  match rules with
  | [] => F.leb hi lo
  | r :: rules' =>
      F.leb (age_min r) lo && F.leb (age_max r) (age_max r)
      && bands_cover (age_max r) hi rules'
  end.

(** Each band of [rules] ends where the later ones start, or earlier. *)
Fixpoint bands_sorted (rules : list DoseRule) : bool :=
  match rules with
  | [] => true
  | r :: rules' =>
      forallb (fun r' => F.leb (age_max r) (age_min r')) rules'
      && bands_sorted rules'
  end.

(** Each band of [rules] lies between the ages [lo] and [hi]. *)
Definition bands_within (lo hi : F.float) (rules : list DoseRule) : bool :=
  forallb (fun r => F.leb lo (age_min r) && F.leb (age_max r) hi) rules.

(** The first letter of a unit of the patterns. *)
Definition unit_initial (c : ascii) : bool :=
  Ascii.eqb c "m" || Ascii.eqb c "g".

Definition is_comma (c : ascii) : bool := Ascii.eqb c ",".

(** A name as the interaction tab keeps it: not empty, with no white
    space at its ends and with no comma. *)
Definition clean_name (d : string) : Prop :=
  d ≠ "" ∧ strip d = d ∧ free_of is_comma d = true.

(** The history of a session after the exchanges [calls], each added by
    [add_to_conversation] to the history that starts empty. *)
Definition conversation (calls : list Exchange) : list Exchange :=
  fold_left
    (fun history c =>
       add_to_conversation (ex_timestamp c) history (ex_user c)
         (ex_assistant c))
    calls [].

(** A reply with the drug name [name] in the place of its own. *)
Definition with_name (name : string) (rep : reply) : reply :=
  match rep with
  | Error (NoDosageData _) => Error (NoDosageData name)
  | Error (NoDosingRule _ a) => Error (NoDosingRule name a)
  | Recommendation r =>
      Recommendation
        (MkRecommendation name (age_years r) (weight_kg r) (dosage r)
           (max_per_day r))
  end.

(** The text starts with a per-kilogram dose, or it has no per-kilogram
    dose and starts with an absolute dose. *)
Definition starts_with_dose (s : string) : bool :=
  match Re.match_at per_kg_re 0 s with
  | Some _ => true
  | None =>
      match Re.search per_kg_re s, Re.match_at range_re 0 s with
      | None, Some _ => true
      | _, _ => false
      end
  end.

(** What [calculate_dose] returns for a text that starts with a dose:
    the new dose and the text after the dose. *)
Definition replaces_dose (s : string) (weight age : F.float) : Prop :=
  (∃ lo hi ws u rest vlo vhi,
     s = lo +:+ range_text hi +:+ ws +:+ u +:+ "/kg" +:+ rest
     ∧ F.of_string lo = Ok vlo
     ∧ match hi with
       | Some h => F.of_string h = Ok vhi
       | None => vhi = vlo
       end
     ∧ Str.all Str.is_space ws = true ∧ is_unit u
     ∧ calculate_dose s weight age
       = Ok (per_kg_text vlo vhi u weight +:+ rest))
  ∨ (∃ lo hi ws u rest vlo vhi,
       s = lo +:+ range_text hi +:+ ws +:+ u +:+ rest
       ∧ int_of_string lo = Ok vlo
       ∧ match hi with
         | Some h => int_of_string h = Ok vhi
         | None => vhi = vlo
         end
       ∧ Str.all Str.is_space ws = true ∧ is_unit u
       ∧ calculate_dose s weight age
         = Ok (Str.of_Z (chosen_dose vlo vhi age) +:+ " " +:+ u +:+ rest)).

(** ** Facts on strings *)

Module StrFacts.

Lemma app_cons (c : ascii) (a b : string) :
  String c a +:+ b = String c (a +:+ b).
Proof. reflexivity. Qed.

Lemma app_nil_l (s : string) : "" +:+ s = s.
Proof. reflexivity. Qed.

Lemma app_nil_r (s : string) : s +:+ "" = s.
Proof.
  induction s as [|c s IH]; [reflexivity|].
  now rewrite app_cons, IH.
Qed.

Lemma app_assoc (a b c : string) : (a +:+ b) +:+ c = a +:+ (b +:+ c).
Proof.
  induction a as [|x a IH]; [reflexivity|].
  now rewrite !app_cons, IH.
Qed.

Lemma length_app (a b : string) :
  String.length (a +:+ b) = (String.length a + String.length b)%nat.
Proof.
  induction a as [|x a IH]; [reflexivity|].
  rewrite app_cons. simpl. now rewrite IH.
Qed.

Lemma app_eq_nil (a b : string) : a +:+ b = "" → a = "" ∧ b = "".
Proof. destruct a; [now rewrite app_nil_l | rewrite app_cons; discriminate]. Qed.

Lemma strip_app (t r : string) : Str.strip t (t +:+ r) = Some r.
Proof.
  induction t as [|c t IH]; [now destruct r|].
  rewrite app_cons. simpl. now rewrite Ascii.eqb_refl.
Qed.

Lemma strip_Some (t s r : string) : Str.strip t s = Some r → s = t +:+ r.
Proof.
  revert s; induction t as [|c t IH]; intros s; simpl.
  - now intros [= ->].
  - destruct s as [|b s]; [discriminate|].
    destruct (Ascii.eqb_spec c b) as [->|]; [|discriminate].
    intros H. now rewrite (IH _ H).
Qed.

Lemma strip_None (t s : string) :
  Str.strip t s = None → ∀ r, s ≠ t +:+ r.
Proof. intros H r ->. now rewrite strip_app in H. Qed.

Lemma take_app (a b : string) : Str.take (String.length a) (a +:+ b) = a.
Proof.
  induction a as [|c a IH]; [now destruct b|].
  rewrite app_cons. simpl. now rewrite IH.
Qed.

Lemma drop_app (a b : string) : Str.drop (String.length a) (a +:+ b) = b.
Proof. induction a as [|c a IH]; [reflexivity | exact IH]. Qed.

Lemma consumed_app (w t : string) : Re.consumed (w +:+ t) t = w.
Proof.
  unfold Re.consumed. rewrite length_app.
  replace (String.length w + String.length t - String.length t)%nat
    with (String.length w) by lia.
  apply take_app.
Qed.

Lemma all_app (p : ascii → bool) (a b : string) :
  Str.all p (a +:+ b) = Str.all p a && Str.all p b.
Proof.
  induction a as [|c a IH]; [reflexivity|].
  rewrite app_cons. simpl. now rewrite IH, andb_assoc.
Qed.

(** [find] returns the offset of an occurrence that has none before it. *)
Lemma find_from_first (sub b : string) :
  ∀ (a : string) (i : Z),
    not_before sub (a +:+ sub +:+ b) (String.length a) →
    Str.find_from i sub (a +:+ sub +:+ b) = i + Z.of_nat (String.length a).
Proof.
  induction a as [|c a IH]; intros i Hfirst.
  - rewrite app_nil_l.
    destruct (sub +:+ b) as [|x y] eqn:E; simpl;
      rewrite <- ?E, strip_app; lia.
  - rewrite app_cons.
    destruct (Str.strip sub (String c (a +:+ sub +:+ b))) as [r|] eqn:E.
    + apply strip_Some in E.
      specialize (Hfirst "" r). rewrite app_nil_l, app_cons in Hfirst.
      specialize (Hfirst E). simpl in Hfirst. lia.
    + simpl in E |- *. rewrite E.
      rewrite IH.
      * simpl String.length. lia.
      * intros a' b' Heq.
        specialize (Hfirst (String c a') b').
        rewrite !app_cons, Heq in Hfirst.
        specialize (Hfirst eq_refl). simpl in Hfirst. lia.
Qed.

Lemma find_first (sub a b : string) :
  not_before sub (a +:+ sub +:+ b) (String.length a) →
  Str.find (a +:+ sub +:+ b) sub = Str.len a.
Proof. intros H. unfold Str.find. now rewrite find_from_first. Qed.

Lemma slice_from_app (a b : string) :
  Str.slice_from (a +:+ b) (Str.len a) = b.
Proof.
  unfold Str.slice_from, Str.len.
  destruct (Z.ltb_spec (Z.of_nat (String.length a)) 0); [lia|].
  rewrite Nat2Z.id. apply drop_app.
Qed.

Lemma len_app (a b : string) : Str.len (a +:+ b) = Str.len a + Str.len b.
Proof. unfold Str.len. rewrite length_app. lia. Qed.

Lemma find_from_le (sub b : string) :
  ∀ (a : string) (i : Z),
    i <= Str.find_from i sub (a +:+ sub +:+ b) <= i + Z.of_nat (String.length a).
Proof.
  induction a as [|c a IH]; intros i.
  - rewrite app_nil_l.
    destruct (sub +:+ b) as [|x y] eqn:E; simpl;
      rewrite <- ?E, strip_app; simpl; lia.
  - rewrite app_cons. cbn [Str.find_from].
    destruct (Str.strip sub (String c (a +:+ sub +:+ b))).
    + simpl String.length. lia.
    + specialize (IH (i + 1)). simpl String.length. lia.
Qed.

(** Where [find] finds [sub], or before, [sub] does not occur earlier. *)
Lemma find_not_before (sub s : string) (n : nat) :
  Z.of_nat n <= Str.find s sub → not_before sub s n.
Proof.
  intros H a b ->. unfold Str.find in H.
  pose proof (find_from_le sub b a 0). lia.
Qed.


End StrFacts.

(** ** The matcher and the texts a pattern denotes *)

Module ReFacts.
Import StrFacts.

Section Generic.
Context {A : Type}.

(** What the matcher accepts is in the language of the pattern. *)
Lemma star_sound (p : ascii → bool) (k : string → option A) :
  ∀ s x, Re.star p s k = Some x →
         ∃ w t, s = w +:+ t ∧ Str.all p w = true ∧ k t = Some x.
Proof.
  induction s as [|c s IH]; intros x H; simpl in H.
  - exists "", "". auto.
  - destruct (p c) eqn:Hc.
    + destruct (Re.star p s k) as [y|] eqn:E.
      * injection H as ->.
        destruct (IH _ eq_refl) as (w & t & -> & Hw & Hk).
        exists (String c w), t. rewrite app_cons. simpl.
        now rewrite Hc, Hw.
      * exists "", (String c s). auto.
    + exists "", (String c s). auto.
Qed.

Lemma matchk_sound (r : Re.regex) :
  ∀ s g (k : string → Re.groups → option A) x,
    Re.matchk r s g k = Some x →
    ∃ w t g', s = w +:+ t ∧ Re.lang r w ∧ k t g' = Some x.
Proof.
  induction r as [l|p|p|r1 IH1 r2 IH2|r1 IH1 r2 IH2|r1 IH1|n r1 IH1];
    intros s g k x H; simpl in H.
  - destruct (Str.strip l s) as [s'|] eqn:E; [|discriminate].
    apply strip_Some in E. exists l, s', g. simpl. auto.
  - apply star_sound in H as (w & t & -> & Hw & Hk).
    exists w, t, g. simpl. auto.
  - destruct s as [|c s]; [discriminate|].
    destruct (p c) eqn:Hc; [|discriminate].
    apply star_sound in H as (w & t & -> & Hw & Hk).
    exists (String c w), t, g. rewrite app_cons. simpl.
    rewrite Hc, Hw. repeat split; auto; discriminate.
  - apply IH1 in H as (w1 & t1 & g1 & -> & H1 & H).
    apply IH2 in H as (w2 & t2 & g2 & -> & H2 & H).
    exists (w1 +:+ w2), t2, g2. rewrite app_assoc. simpl.
    repeat split; eauto.
  - destruct (Re.matchk r1 s g k) as [y|] eqn:E.
    + injection H as ->.
      apply IH1 in E as (w & t & g' & -> & Hw & Hk).
      exists w, t, g'. simpl. auto.
    + apply IH2 in H as (w & t & g' & -> & Hw & Hk).
      exists w, t, g'. simpl. auto.
  - destruct (Re.matchk r1 s g k) as [y|] eqn:E.
    + injection H as ->.
      apply IH1 in E as (w & t & g' & -> & Hw & Hk).
      exists w, t, g'. simpl. auto.
    + exists "", s, g. simpl. auto.
  - apply IH1 in H as (w & t & g' & -> & Hw & Hk).
    exists w, t, ((n, Re.consumed (w +:+ t) t) :: g'). simpl. auto.
Qed.

(** A text of the language is accepted, whatever follows it, when the
    continuation accepts what follows. *)
Lemma star_complete (p : ascii → bool) (k : string → option A) (t : string) :
  k t ≠ None → ∀ w, Str.all p w = true → Re.star p (w +:+ t) k ≠ None.
Proof.
  intros Hk. induction w as [|c w IH]; intros Hw.
  - rewrite app_nil_l. destruct t as [|c t]; simpl; [exact Hk|].
    destruct (p c); [|exact Hk].
    destruct (Re.star p t k); [discriminate | exact Hk].
  - rewrite app_cons. simpl in Hw |- *.
    apply andb_prop in Hw as [Hc Hw]. rewrite Hc.
    specialize (IH Hw).
    destruct (Re.star p (w +:+ t) k); [discriminate | contradiction].
Qed.

Lemma matchk_complete (r : Re.regex) :
  ∀ w t g (k : string → Re.groups → option A),
    Re.lang r w → (∀ g', k t g' ≠ None) →
    Re.matchk r (w +:+ t) g k ≠ None.
Proof.
  induction r as [l|p|p|r1 IH1 r2 IH2|r1 IH1 r2 IH2|r1 IH1|n r1 IH1];
    intros w t g k Hw Hk; simpl in Hw |- *.
  - subst w. rewrite strip_app. apply Hk.
  - apply star_complete; auto.
  - destruct Hw as [Hne Hw]. destruct w as [|c w]; [contradiction|].
    rewrite app_cons. simpl in Hw. apply andb_prop in Hw as [Hc Hw].
    rewrite Hc. apply star_complete; auto.
  - destruct Hw as (w1 & w2 & -> & H1 & H2). rewrite app_assoc.
    apply IH1; [exact H1|]. intros g'. apply IH2; auto.
  - destruct (Re.matchk r1 (w +:+ t) g k) eqn:E; [discriminate|].
    destruct Hw as [H1|H2]; [|now apply IH2].
    exfalso. revert E. now apply IH1.
  - destruct (Re.matchk r1 (w +:+ t) g k) eqn:E; [discriminate|].
    destruct Hw as [->|H1]; [apply Hk|].
    exfalso. revert E. now apply IH1.
  - apply IH1; [exact Hw|]. intros g'. apply Hk.
Qed.
End Generic.

Lemma match_at_sound (r : Re.regex) (i : nat) (s : string) (m : Re.re_match) :
  Re.match_at r i s = Some m →
  ∃ w, s = w +:+ Re.m_rest m ∧ Re.lang r w ∧ Re.m_start m = i.
Proof.
  unfold Re.match_at. intros H.
  apply matchk_sound in H as (w & t & g' & -> & Hw & [= <-]).
  exists w. auto.
Qed.

Lemma match_at_complete (r : Re.regex) (i : nat) (w t : string) :
  Re.lang r w → Re.match_at r i (w +:+ t) ≠ None.
Proof.
  intros Hw. unfold Re.match_at. apply matchk_complete; [exact Hw|].
  discriminate.
Qed.

Lemma search_from_sound (r : Re.regex) :
  ∀ s i m, Re.search_from r i s = Some m →
    ∃ pre w, s = pre +:+ w +:+ Re.m_rest m ∧ Re.lang r w
             ∧ Re.m_start m = (i + String.length pre)%nat.
Proof.
  induction s as [|c s IH]; intros i m H; simpl in H.
  - destruct (Re.match_at r i "") as [m'|] eqn:E; [|discriminate].
    injection H as ->. apply match_at_sound in E as (w & Hs & Hw & Hi).
    exists "", w. rewrite app_nil_l. simpl. split; [exact Hs|]. split; [exact Hw|lia].
  - destruct (Re.match_at r i (String c s)) as [m'|] eqn:E.
    + injection H as ->. apply match_at_sound in E as (w & Hs & Hw & Hi).
      exists "", w. rewrite app_nil_l. simpl.
      split; [exact Hs|]. split; [exact Hw|lia].
    + apply IH in H as (pre & w & -> & Hw & Hi).
      exists (String c pre), w. rewrite app_cons. simpl.
      split; [reflexivity|]. split; [exact Hw|lia].
Qed.

Lemma search_from_complete (r : Re.regex) (w rest : string) :
  Re.lang r w → ∀ pre i, Re.search_from r i (pre +:+ w +:+ rest) ≠ None.
Proof.
  intros Hw. induction pre as [|c pre IH]; intros i.
  - rewrite app_nil_l.
    pose proof (match_at_complete r i w rest Hw) as H.
    destruct (w +:+ rest); simpl;
      destruct (Re.match_at r i _); try discriminate; contradiction.
  - rewrite app_cons. simpl.
    destruct (Re.match_at r i _); [discriminate | apply IH].
Qed.

(** [re.search] finds nothing exactly in the texts with no occurrence. *)
Lemma search_None_iff (r : Re.regex) (s : string) :
  Re.search r s = None ↔ ¬ Re.occurs r s.
Proof.
  unfold Re.search. split.
  - intros H (i & pre & w & rest & -> & _ & Hw).
    revert H. now apply search_from_complete.
  - intros H. destruct (Re.search_from r 0 s) as [m|] eqn:E; [|reflexivity].
    exfalso. apply H.
    apply search_from_sound in E as (pre & w & Hs & Hw & _).
    exists (String.length pre), pre, w, (Re.m_rest m). auto.
Qed.

Lemma search_Some_occurs (r : Re.regex) (s : string) (m : Re.re_match) :
  Re.search r s = Some m → Re.occurs r s.
Proof.
  intros E. apply search_from_sound in E as (pre & w & Hs & Hw & _).
  exists (String.length pre), pre, w, (Re.m_rest m). auto.
Qed.

(** Offsets with no occurrence are passed over. *)
Lemma search_from_first (r : Re.regex) (tail : string) :
  ∀ pre i, first_at r pre tail →
    Re.search_from r i (pre +:+ tail)
    = Re.search_from r (i + String.length pre) tail.
Proof.
  induction pre as [|c pre IH]; intros i Hfirst.
  - rewrite app_nil_l. simpl. now rewrite Nat.add_0_r.
  - rewrite app_cons. simpl.
    destruct (Re.match_at r i (String c (pre +:+ tail))) as [m|] eqn:E.
    + exfalso. apply match_at_sound in E as (w & Hs & Hw & _).
      apply (Hfirst "" (String c pre) w (Re.m_rest m)); auto; discriminate.
    + rewrite IH.
      * f_equal. lia.
      * intros p1 p2 w rest Hp Hne Hs.
        apply (Hfirst (String c p1) p2 w rest); auto.
        now rewrite app_cons, Hp.
Qed.

Lemma search_first (r : Re.regex) (pre tail : string) (m : Re.re_match) :
  first_at r pre tail →
  Re.match_at r (String.length pre) tail = Some m →
  Re.search r (pre +:+ tail) = Some m.
Proof.
  intros Hfirst Hm. unfold Re.search.
  rewrite search_from_first by exact Hfirst. simpl.
  destruct tail; simpl; now rewrite Hm.
Qed.

(** The match that [re.search] returns starts at the first occurrence. *)
Lemma search_from_leftmost (r : Re.regex) :
  ∀ s i m, Re.search_from r i s = Some m →
    ∃ pre w, s = pre +:+ w +:+ Re.m_rest m ∧ Re.lang r w
             ∧ first_at r pre (w +:+ Re.m_rest m).
Proof.
  assert (∀ i s m, Re.match_at r i s = Some m →
            ∃ pre w, s = pre +:+ w +:+ Re.m_rest m ∧ Re.lang r w
                     ∧ first_at r pre (w +:+ Re.m_rest m)) as Hhere.
  { intros i s m E. apply match_at_sound in E as (w & Hs & Hw & _).
    exists "", w. rewrite app_nil_l. split; [exact Hs|]. split; [exact Hw|].
    intros p1 p2 w' rest Hp Hne. apply eq_sym, app_eq_nil in Hp as [_ ->].
    contradiction. }
  induction s as [|c s IHs]; intros i m H; simpl in H.
  - destruct (Re.match_at r i "") as [m'|] eqn:E; [|discriminate].
    injection H as ->. now apply Hhere with i.
  - destruct (Re.match_at r i (String c s)) as [m'|] eqn:E.
    + injection H as ->. now apply Hhere with i.
    + apply IHs in H as (pre & w & -> & Hw & Hfirst).
      exists (String c pre), w. rewrite app_cons.
      split; [reflexivity|]. split; [exact Hw|].
      intros p1 p2 w' rest Hp Hne Hs Hw'.
      destruct p1 as [|c1 p1].
      * rewrite app_nil_l in Hp. subst p2. rewrite app_cons in Hs.
        rewrite Hs in E. revert E. now apply match_at_complete.
      * rewrite app_cons in Hp. injection Hp as -> Hp.
        now apply (Hfirst p1 p2 w' rest).
Qed.

(** A text with an occurrence of the pattern has a first one. *)
Lemma occurs_first (r : Re.regex) (s : string) :
  Re.occurs r s →
  ∃ pre w rest, s = pre +:+ w +:+ rest ∧ Re.lang r w
                ∧ first_at r pre (w +:+ rest).
Proof.
  intros H. destruct (Re.search r s) as [m|] eqn:E.
  - apply search_from_leftmost in E as (pre & w & Hs & Hw & Hfirst).
    now exists pre, w, (Re.m_rest m).
  - apply search_None_iff in E. contradiction.
Qed.

Lemma first_at_b_sound (r : Re.regex) (tail : string) :
  ∀ pre, first_at_b r pre tail = true → first_at r pre tail.
Proof.
  induction pre as [|c pre IH]; intros H p1 p2 w rest Hp Hne Hs Hw.
  - apply eq_sym, app_eq_nil in Hp as [_ ->]. contradiction.
  - simpl in H.
    destruct (Re.match_at r 0 (String c pre +:+ tail)) eqn:E; [discriminate|].
    destruct p1 as [|c1 p1].
    + rewrite app_nil_l in Hp. subst p2. rewrite Hs in E.
      revert E. now apply match_at_complete.
    + rewrite app_cons in Hp. injection Hp as -> Hp.
      now apply (IH H p1 p2 w rest).
Qed.

End ReFacts.

(** ** The patterns on the texts they are written for *)

Module PatFacts.
Import StrFacts ReFacts.

Section Exec.
Context {A : Type}.

Lemma star_exec (p : ascii → bool) (k : string → option A) (t : string) (x : A) :
  Str.starts p t = false → k t = Some x →
  ∀ w, Str.all p w = true → Re.star p (w +:+ t) k = Some x.
Proof.
  intros Ht Hk. induction w as [|c w IH]; intros Hw.
  - rewrite app_nil_l. destruct t as [|c t]; simpl in *; [exact Hk|].
    now rewrite Ht.
  - rewrite app_cons. simpl in Hw |- *.
    apply andb_prop in Hw as [-> Hw]. now rewrite (IH Hw).
Qed.

Lemma Star_exec (p : ascii → bool) (w t : string) (g : Re.groups)
    (k : string → Re.groups → option A) (x : A) :
  Str.all p w = true → Str.starts p t = false → k t g = Some x →
  Re.matchk (Re.Star p) (w +:+ t) g k = Some x.
Proof. intros Hw Ht Hk. simpl. now apply star_exec. Qed.

Lemma Plus_exec (p : ascii → bool) (w t : string) (g : Re.groups)
    (k : string → Re.groups → option A) (x : A) :
  w ≠ "" → Str.all p w = true → Str.starts p t = false →
  k t g = Some x →
  Re.matchk (Re.Plus p) (w +:+ t) g k = Some x.
Proof.
  intros Hne Hw Ht Hk. destruct w as [|c w]; [contradiction|].
  rewrite app_cons. simpl in Hw |- *.
  apply andb_prop in Hw as [-> Hw]. now apply star_exec.
Qed.

Lemma Lit_exec (l t : string) (g : Re.groups)
    (k : string → Re.groups → option A) (x : A) :
  k t g = Some x → Re.matchk (Re.Lit l) (l +:+ t) g k = Some x.
Proof. intros Hk. simpl. now rewrite strip_app. Qed.

Lemma Opt_exec (r : Re.regex) (s : string) (g : Re.groups)
    (k : string → Re.groups → option A) (x : A) :
  Re.matchk r s g k = Some x → Re.matchk (Re.Opt r) s g k = Some x.
Proof. intros H. simpl. now rewrite H. Qed.

Lemma Opt_skip (r : Re.regex) (s : string) (g : Re.groups)
    (k : string → Re.groups → option A) (x : A) :
  Re.matchk r s g k = None → k s g = Some x →
  Re.matchk (Re.Opt r) s g k = Some x.
Proof. intros H Hk. simpl. now rewrite H. Qed.

Lemma Group_exec (n : nat) (r : Re.regex) (w t : string) (g : Re.groups)
    (k : string → Re.groups → option A) (x : A) :
  Re.matchk r (w +:+ t) g
    (fun s' g' => k s' ((n, Re.consumed (w +:+ t) s') :: g')) = Some x →
  Re.matchk (Re.Group n r) (w +:+ t) g k = Some x.
Proof. intros H. exact H. Qed.
End Exec.

Lemma nonempty_digits_inv (w : string) :
  F.nonempty_digits w = true → w ≠ "" ∧ Str.all Str.is_digit w = true.
Proof.
  unfold F.nonempty_digits. intros H. apply andb_prop in H as [H1 H2].
  split; [|exact H2]. intros ->. discriminate.
Qed.

Lemma number_stop_digit (t : string) :
  number_stop t = true → Str.starts Str.is_digit t = false.
Proof.
  unfold number_stop. destruct t as [|c t]; simpl; [reflexivity|].
  destruct (Str.is_digit c); simpl; [discriminate | reflexivity].
Qed.

Lemma number_stop_point (t : string) :
  number_stop t = true → Str.strip "." t = None.
Proof.
  unfold number_stop. destruct t as [|c t]; [reflexivity|].
  change (Str.strip "." (String c t))
    with (if Ascii.eqb "." c then Some t else None).
  unfold Str.starts. rewrite (Ascii.eqb_sym "." c).
  destruct (Ascii.eqb c "."); [|reflexivity].
  rewrite orb_true_r. discriminate.
Qed.

(** [number_re n] reads a number that is followed by a text on which a
    number ends, and sets its groups. *)
Lemma number_exec {A : Type} (n : nat) (ip : string) (fp : option string)
    (t : string) (g : Re.groups) (k : string → Re.groups → option A) (x : A) :
  F.nonempty_digits ip = true →
  (∀ f, fp = Some f → F.nonempty_digits f = true) →
  number_stop t = true →
  k t (number_groups n ip fp g) = Some x →
  Re.matchk (number_re n) ((ip +:+ frac_text fp) +:+ t) g k = Some x.
Proof.
  intros Hip Hfp Ht Hk.
  apply nonempty_digits_inv in Hip as [Hne Hip].
  unfold number_re. apply Group_exec.
  change (Re.matchk (Re.Seq ?a ?b) ?s ?g ?k)
    with (Re.matchk a s g (fun s' g' => Re.matchk b s' g' k)).
  rewrite app_assoc.
  destruct fp as [f|]; unfold frac_text, number_groups in *.
  - destruct (nonempty_digits_inv f (Hfp f eq_refl)) as [Hfne Hf].
    apply Plus_exec; [exact Hne | exact Hip | reflexivity |].
    apply Opt_exec. apply Group_exec.
    change (Re.matchk (Re.Seq ?a ?b) ?s ?g ?k)
      with (Re.matchk a s g (fun s' g' => Re.matchk b s' g' k)).
    rewrite (app_assoc "." f t). apply Lit_exec.
    apply Plus_exec; [exact Hfne | exact Hf | now apply number_stop_digit |].
    rewrite <- ?app_assoc, !consumed_app, ?app_assoc. exact Hk.
  - rewrite app_nil_l.
    apply Plus_exec; [exact Hne | exact Hip | now apply number_stop_digit |].
    apply Opt_skip.
    + cbn [Re.matchk]. now rewrite number_stop_point.
    + rewrite <- (app_nil_r ip) at 1. rewrite app_assoc, app_nil_l.
      rewrite consumed_app, app_nil_r in *. exact Hk.
Qed.

Lemma unit_exec {A : Type} (n : nat) (u t : string) (g : Re.groups)
    (k : string → Re.groups → option A) (x : A) :
  is_unit u → k t ((n, u) :: g) = Some x →
  Re.matchk (unit_re n) (u +:+ t) g k = Some x.
Proof.
  intros Hu Hk. unfold unit_re. apply Group_exec.
  destruct Hu as [-> | [-> | ->]]; cbn [Re.matchk].
  - now rewrite strip_app, consumed_app, Hk.
  - change (Str.strip "mg" ("mcg" +:+ t)) with (@None string).
    now rewrite strip_app, consumed_app, Hk.
  - change (Str.strip "mg" ("g" +:+ t)) with (@None string).
    change (Str.strip "mcg" ("g" +:+ t)) with (@None string).
    now rewrite strip_app, consumed_app, Hk.
Qed.

Lemma space_not_number (c : ascii) :
  Str.is_space c = true → Str.is_digit c || Ascii.eqb c "." = false.
Proof.
  destruct c as [[] [] [] [] [] [] [] []]; intros H;
    solve [reflexivity | discriminate H].
Qed.

Lemma space_not_dash (c : ascii) :
  Str.is_space c = true → Ascii.eqb "226" c = false.
Proof.
  destruct c as [[] [] [] [] [] [] [] []]; intros H;
    solve [reflexivity | discriminate H].
Qed.

Lemma strip_head_ne (a c : ascii) (l r : string) :
  Ascii.eqb a c = false → Str.strip (String a l) (String c r) = None.
Proof. intros H. cbn [Str.strip]. now rewrite H. Qed.

(** After the number come white space and a unit: the number ends
    there, no en dash starts there, and the white space ends before the
    unit. *)
Lemma stop_spaces_unit (ws u rest : string) :
  Str.all Str.is_space ws = true → is_unit u →
  number_stop (ws +:+ u +:+ rest) = true.
Proof.
  intros Hws Hu. destruct ws as [|c ws].
  - now destruct Hu as [-> | [-> | ->]].
  - simpl in Hws. apply andb_prop in Hws as [Hc _].
    unfold number_stop. rewrite app_cons. simpl.
    now rewrite (space_not_number c Hc).
Qed.

Lemma no_dash_spaces_unit (ws u rest : string) :
  Str.all Str.is_space ws = true → is_unit u →
  Str.strip endash (ws +:+ u +:+ rest) = None.
Proof.
  intros Hws Hu. destruct ws as [|c ws].
  - now destruct Hu as [-> | [-> | ->]].
  - simpl in Hws. apply andb_prop in Hws as [Hc _].
    rewrite app_cons. apply strip_head_ne. now apply space_not_dash.
Qed.

Lemma unit_not_space (u rest : string) :
  is_unit u → Str.starts Str.is_space (u +:+ rest) = false.
Proof. now intros [-> | [-> | ->]]. Qed.

Lemma split_point_spec (s : string) :
  match F.split_point s with
  | (a, Some b) => s = a +:+ "." +:+ b
  | (a, None) => s = a
  end.
Proof.
  induction s as [|c s IH]; [reflexivity|].
  cbn [F.split_point].
  destruct (Ascii.eqb_spec c ".") as [->|Hc]; [reflexivity|].
  destruct (F.split_point s) as [a [b|]]; rewrite ?app_cons; now f_equal.
Qed.

(** The texts that [float()] reads here are the numbers of the patterns. *)
Lemma of_string_inv (w : string) (v : F.float) :
  F.of_string w = Ok v →
  ∃ ip fp, w = ip +:+ frac_text fp
           ∧ F.nonempty_digits ip = true
           ∧ (∀ f, fp = Some f → F.nonempty_digits f = true).
Proof.
  unfold F.of_string. pose proof (split_point_spec w) as Hs.
  destruct (F.split_point w) as [a [b|]].
  - destruct (F.nonempty_digits a) eqn:Ha; [|discriminate].
    destruct (F.nonempty_digits b) eqn:Hb; [|discriminate].
    intros _. exists a, (Some b). split; [exact Hs|].
    split; [exact Ha|]. now intros f [= <-].
  - destruct (F.nonempty_digits a) eqn:Ha; [|discriminate].
    intros _. exists a, None. subst w. rewrite app_nil_r.
    split; [reflexivity|]. split; [exact Ha | discriminate].
Qed.

Lemma lookup_number_groups (n : nat) (ip : string) (fp : option string)
    (g : Re.groups) :
  Re.lookup n (number_groups n ip fp g) = Some (ip +:+ frac_text fp).
Proof. unfold number_groups. cbn [Re.lookup]. now rewrite Nat.eqb_refl. Qed.

Lemma lookup_number_groups_other (k n : nat) (ip : string)
    (fp : option string) (g : Re.groups) :
  k ≠ n → k ≠ S n →
  Re.lookup k (number_groups n ip fp g) = Re.lookup k g.
Proof.
  intros H1 H2. unfold number_groups. cbn [Re.lookup].
  apply Nat.eqb_neq in H1, H2. rewrite H1.
  destruct fp; cbn [Re.lookup]; now rewrite ?H2.
Qed.

Lemma lookup_per_kg_1 (ip : string) (fp : option string)
    (hi : option (string * option string)) (u : string) :
  Re.lookup 1 (per_kg_groups ip fp hi u) = Some (ip +:+ frac_text fp).
Proof.
  unfold per_kg_groups. destruct hi as [[hip hfp]|]; cbn [Re.lookup Nat.eqb].
  - rewrite lookup_number_groups_other by lia. apply lookup_number_groups.
  - apply lookup_number_groups.
Qed.

Lemma lookup_per_kg_4 (ip : string) (fp : option string)
    (hi : option (string * option string)) (u : string) :
  Re.lookup 4 (per_kg_groups ip fp hi u) = bound_text hi.
Proof.
  unfold per_kg_groups, bound_text.
  destruct hi as [[hip hfp]|]; cbn [Re.lookup Nat.eqb].
  - apply lookup_number_groups.
  - now rewrite lookup_number_groups_other by lia.
Qed.

(** [max_re] on a number, white space and a unit. *)
Lemma max_match_at (i : nat) (ip : string) (fp : option string)
    (ws u rest : string) :
  F.nonempty_digits ip = true →
  (∀ f, fp = Some f → F.nonempty_digits f = true) →
  Str.all Str.is_space ws = true → is_unit u →
  Re.match_at max_re i ((ip +:+ frac_text fp) +:+ ws +:+ u +:+ rest)
  = Some (Re.MkMatch i ((3%nat, u) :: number_groups 1 ip fp []) rest).
Proof.
  intros Hip Hfp Hws Hu. unfold Re.match_at, max_re.
  change (Re.matchk (Re.Seq ?a ?b) ?s ?g ?k)
    with (Re.matchk a s g (fun s' g' => Re.matchk b s' g' k)).
  apply number_exec; [exact Hip | exact Hfp | now apply stop_spaces_unit |].
  change (Re.matchk (Re.Seq ?a ?b) ?s ?g ?k)
    with (Re.matchk a s g (fun s' g' => Re.matchk b s' g' k)).
  apply Star_exec; [exact Hws | now apply unit_not_space |].
  now apply unit_exec.
Qed.

(** [per_kg_re] on a number, an optional upper bound, white space, a
    unit and [/kg]. *)
Lemma per_kg_match_at (i : nat) (ip : string) (fp : option string)
    (hi : option (string * option string)) (ws u rest : string) :
  F.nonempty_digits ip = true →
  (∀ f, fp = Some f → F.nonempty_digits f = true) →
  (∀ hip hfp, hi = Some (hip, hfp) →
     F.nonempty_digits hip = true
     ∧ ∀ f, hfp = Some f → F.nonempty_digits f = true) →
  Str.all Str.is_space ws = true → is_unit u →
  Re.match_at per_kg_re i
    ((ip +:+ frac_text fp) +:+ range_text (bound_text hi)
     +:+ ws +:+ u +:+ "/kg" +:+ rest)
  = Some (Re.MkMatch i (per_kg_groups ip fp hi u) rest).
Proof.
  intros Hip Hfp Hhi Hws Hu. unfold Re.match_at, per_kg_re.
  change (Re.matchk (Re.Seq ?a ?b) ?s ?g ?k)
    with (Re.matchk a s g (fun s' g' => Re.matchk b s' g' k)).
  destruct hi as [[hip hfp]|]; unfold bound_text, range_text, per_kg_groups.
  - destruct (Hhi hip hfp eq_refl) as [Hhip Hhfp].
    pose proof (stop_spaces_unit ws u ("/kg" +:+ rest) Hws Hu) as Hstop.
    set (t := ws +:+ u +:+ "/kg" +:+ rest) in *.
    apply number_exec; [exact Hip | exact Hfp | reflexivity |].
    change (Re.matchk (Re.Seq ?a ?b) ?s ?g ?k)
      with (Re.matchk a s g (fun s' g' => Re.matchk b s' g' k)).
    apply Opt_exec. apply Group_exec.
    change (Re.matchk (Re.Seq ?a ?b) ?s ?g ?k)
      with (Re.matchk a s g (fun s' g' => Re.matchk b s' g' k)).
    rewrite (app_assoc endash). apply Lit_exec.
    apply number_exec; [exact Hhip | exact Hhfp | exact Hstop |].
    rewrite <- (app_assoc endash), consumed_app. subst t.
    change (Re.matchk (Re.Seq ?a ?b) ?s ?g ?k)
      with (Re.matchk a s g (fun s' g' => Re.matchk b s' g' k)).
    apply Star_exec; [exact Hws | now apply unit_not_space |].
    change (Re.matchk (Re.Seq ?a ?b) ?s ?g ?k)
      with (Re.matchk a s g (fun s' g' => Re.matchk b s' g' k)).
    apply unit_exec; [exact Hu|]. now apply Lit_exec.
  - rewrite app_nil_l.
    apply number_exec; [exact Hip | exact Hfp | now apply stop_spaces_unit |].
    change (Re.matchk (Re.Seq ?a ?b) ?s ?g ?k)
      with (Re.matchk a s g (fun s' g' => Re.matchk b s' g' k)).
    apply Opt_skip.
    + cbn [Re.matchk]. now rewrite no_dash_spaces_unit.
    + change (Re.matchk (Re.Seq ?a ?b) ?s ?g ?k)
        with (Re.matchk a s g (fun s' g' => Re.matchk b s' g' k)).
      apply Star_exec; [exact Hws | now apply unit_not_space |].
      change (Re.matchk (Re.Seq ?a ?b) ?s ?g ?k)
        with (Re.matchk a s g (fun s' g' => Re.matchk b s' g' k)).
      apply unit_exec; [exact Hu|]. now apply Lit_exec.
Qed.

Lemma nonempty_digits_intro (w : string) :
  w ≠ "" → Str.all Str.is_digit w = true → F.nonempty_digits w = true.
Proof.
  intros Hne Hw. unfold F.nonempty_digits. rewrite Hw.
  destruct w; [contradiction | reflexivity].
Qed.

Lemma digit_not_point (c : ascii) :
  Str.is_digit c = true → Ascii.eqb c "." = false.
Proof.
  destruct c as [[] [] [] [] [] [] [] []]; intros H;
    solve [reflexivity | discriminate H].
Qed.

Lemma split_point_digits (ip t : string) :
  Str.all Str.is_digit ip = true →
  F.split_point (ip +:+ t)
  = (ip +:+ fst (F.split_point t), snd (F.split_point t)).
Proof.
  induction ip as [|c ip IHip]; intros H.
  - rewrite !app_nil_l. now destruct (F.split_point t).
  - simpl in H. apply andb_prop in H as [Hc H].
    rewrite !app_cons. cbn [F.split_point].
    rewrite (digit_not_point c Hc), (IHip H). reflexivity.
Qed.

(** [float()] reads every number of the patterns. *)
Lemma of_string_number (ip : string) (fp : option string) :
  F.nonempty_digits ip = true →
  (∀ f, fp = Some f → F.nonempty_digits f = true) →
  ∃ v, F.of_string (ip +:+ frac_text fp) = Ok v.
Proof.
  intros Hip Hfp. unfold F.of_string.
  destruct (nonempty_digits_inv ip Hip) as [_ Hd].
  rewrite (split_point_digits ip _ Hd).
  destruct fp as [f|]; unfold frac_text.
  - change (F.split_point ("." +:+ f)) with ("", Some f). cbn [fst snd].
    rewrite app_nil_r, Hip, (Hfp f eq_refl). eauto.
  - cbn [F.split_point fst snd]. rewrite app_nil_r, Hip. eauto.
Qed.

Lemma number_lang_inv (n : nat) (w : string) :
  Re.lang (number_re n) w →
  ∃ ip fp, w = ip +:+ frac_text fp
           ∧ F.nonempty_digits ip = true
           ∧ (∀ f, fp = Some f → F.nonempty_digits f = true).
Proof.
  simpl. intros (w1 & w2 & -> & [Hne Hw1] & [->|(a & b & -> & -> & Hb1 & Hb2)]).
  - exists w1, None. split; [reflexivity|].
    split; [now apply nonempty_digits_intro | discriminate].
  - exists w1, (Some b). split; [reflexivity|].
    split; [now apply nonempty_digits_intro|].
    intros f [= <-]. now apply nonempty_digits_intro.
Qed.

Lemma unit_lang_inv (n : nat) (w : string) :
  Re.lang (unit_re n) w → is_unit w.
Proof. simpl. unfold is_unit. tauto. Qed.

(** An occurrence of [max_re] is a number, white space and a unit. *)
Lemma max_lang_inv (w : string) :
  Re.lang max_re w →
  ∃ num ws u v, w = num +:+ ws +:+ u ∧ F.of_string num = Ok v
                ∧ Str.all Str.is_space ws = true ∧ is_unit u.
Proof.
  unfold max_re. cbn [Re.lang].
  intros (num & w2 & -> & Hnum & ws & u & -> & Hws & Hu).
  apply number_lang_inv in Hnum as (ip & fp & -> & Hip & Hfp).
  destruct (of_string_number ip fp Hip Hfp) as [v Hv].
  apply unit_lang_inv in Hu. now exists (ip +:+ frac_text fp), ws, u, v.
Qed.

(** An occurrence of [per_kg_re] is a number, an optional upper bound,
    white space, a unit and "/kg". *)
Lemma per_kg_lang_inv (w : string) :
  Re.lang per_kg_re w →
  ∃ lo hi ws u vlo vhi,
    w = lo +:+ range_text hi +:+ ws +:+ u +:+ "/kg"
    ∧ F.of_string lo = Ok vlo
    ∧ match hi with
      | Some h => F.of_string h = Ok vhi
      | None => vhi = vlo
      end
    ∧ Str.all Str.is_space ws = true ∧ is_unit u.
Proof.
  unfold per_kg_re. cbn [Re.lang].
  intros (lo & w2 & -> & Hlo & r & w3 & -> & Hr & ws & w4 & -> & Hws
          & u & k & -> & Hu & ->).
  apply number_lang_inv in Hlo as (ip & fp & -> & Hip & Hfp).
  destruct (of_string_number ip fp Hip Hfp) as [vlo Hvlo].
  apply unit_lang_inv in Hu.
  destruct Hr as [->|(d & h & -> & -> & Hh)].
  - exists (ip +:+ frac_text fp), None, ws, u, vlo, vlo. auto.
  - apply number_lang_inv in Hh as (hip & hfp & -> & Hhip & Hhfp).
    destruct (of_string_number hip hfp Hhip Hhfp) as [vhi Hvhi].
    exists (ip +:+ frac_text fp), (Some (hip +:+ frac_text hfp)), ws, u,
      vlo, vhi.
    auto.
Qed.

End PatFacts.

(** ** The order of binary64 numbers *)

Module FFacts.

Ltac cmp_cases :=
  repeat match goal with
  | H : context [Pos.compare_cont Eq ?a ?b] |- _ =>
      change (Pos.compare_cont Eq a b) with (Pos.compare a b) in *
  | |- context [Pos.compare_cont Eq ?a ?b] =>
      change (Pos.compare_cont Eq a b) with (Pos.compare a b) in *
  end;
  repeat match goal with
  | H : context [Z.compare ?a ?b] |- _ =>
      destruct (Z.compare_spec a b); subst; simpl in H
  | |- context [Z.compare ?a ?b] =>
      destruct (Z.compare_spec a b); subst; simpl
  | H : context [Pos.compare ?a ?b] |- _ =>
      destruct (Pos.compare_spec a b); subst; simpl in H
  | |- context [Pos.compare ?a ?b] =>
      destruct (Pos.compare_spec a b); subst; simpl
  end; try discriminate; try reflexivity; try lia.

Lemma leb_trans (a b c : F.float) :
  F.leb a b = true → F.leb b c = true → F.leb a c = true.
Proof.
  unfold F.leb, SFleb, SFcompare.
  destruct a as [sa|sa| |sa ma ea], b as [sb|sb| |sb mb eb],
           c as [sc|sc| |sc mc ec];
    try destruct sa; try destruct sb; try destruct sc; simpl;
    try discriminate; try reflexivity; intros; cmp_cases.
Qed.

Lemma leb_not_ltb (a b : F.float) : F.leb a b = true → F.ltb b a = false.
Proof.
  unfold F.leb, F.ltb, SFleb, SFltb, SFcompare.
  destruct a as [sa|sa| |sa ma ea], b as [sb|sb| |sb mb eb];
    try destruct sa; try destruct sb; simpl;
    try discriminate; try reflexivity; intros; cmp_cases.
Qed.

Lemma ltb_not_leb (a b : F.float) : F.ltb a b = true → F.leb b a = false.
Proof.
  unfold F.leb, F.ltb, SFleb, SFltb, SFcompare.
  destruct a as [sa|sa| |sa ma ea], b as [sb|sb| |sb mb eb];
    try destruct sa; try destruct sb; simpl;
    try discriminate; try reflexivity; intros; cmp_cases.
Qed.

(** Below the constant [c] there is nothing that is at least [d], for
    [c <= d]. *)
Lemma above_not_below (c d x : F.float) :
  F.leb c d = true → F.leb d x = true → F.ltb x c = false.
Proof.
  intros Hcd Hdx. apply leb_not_ltb. now apply leb_trans with d.
Qed.

End FFacts.

(** ** The weight estimator *)

(** C9.  The weight estimator is a total function of the age alone: 4.0 kg
    below 0.1 years, 8.0 kg from 0.1 to below 1, 15.0 kg from 1 to below
    5, 35.0 kg from 5 to below 12 and 70.0 kg from 12 on; every age, a
    not-a-number included, gets one of these five weights; and the five
    examples of the specification hold. *)
Theorem C9_estimate_weight_bands :
  (∀ age, F.ltb age (F.of_ratio 1 10) = true →
          estimate_weight_by_age age = F.of_ratio 40 10)
  ∧ (∀ age, F.leb (F.of_ratio 1 10) age = true → F.ltb age (F.of_Z 1) = true →
            estimate_weight_by_age age = F.of_ratio 80 10)
  ∧ (∀ age, F.leb (F.of_Z 1) age = true → F.ltb age (F.of_Z 5) = true →
            estimate_weight_by_age age = F.of_ratio 150 10)
  ∧ (∀ age, F.leb (F.of_Z 5) age = true → F.ltb age (F.of_Z 12) = true →
            estimate_weight_by_age age = F.of_ratio 350 10)
  ∧ (∀ age, F.leb (F.of_Z 12) age = true →
            estimate_weight_by_age age = F.of_ratio 700 10)
  ∧ (∀ age, estimate_weight_by_age age
            ∈ [F.of_ratio 40 10; F.of_ratio 80 10; F.of_ratio 150 10;
               F.of_ratio 350 10; F.of_ratio 700 10])
  ∧ estimate_weight_by_age (F.of_ratio 5 100) = F.of_ratio 40 10
  ∧ estimate_weight_by_age (F.of_ratio 5 10) = F.of_ratio 80 10
  ∧ estimate_weight_by_age (F.of_Z 3) = F.of_ratio 150 10
  ∧ estimate_weight_by_age (F.of_Z 8) = F.of_ratio 350 10
  ∧ estimate_weight_by_age (F.of_Z 40) = F.of_ratio 700 10.
Proof.
  repeat split; try reflexivity; intros age; unfold estimate_weight_by_age.
  - now intros ->.
  - intros H1 ->.
    now rewrite (FFacts.leb_not_ltb _ _ H1).
  - intros H1 ->.
    rewrite (FFacts.above_not_below (F.of_ratio 1 10) (F.of_Z 1) age eq_refl H1).
    now rewrite (FFacts.leb_not_ltb _ _ H1).
  - intros H1 ->.
    rewrite (FFacts.above_not_below (F.of_ratio 1 10) (F.of_Z 5) age eq_refl H1).
    rewrite (FFacts.above_not_below (F.of_Z 1) (F.of_Z 5) age eq_refl H1).
    now rewrite (FFacts.leb_not_ltb _ _ H1).
  - intros H1.
    rewrite (FFacts.above_not_below (F.of_ratio 1 10) (F.of_Z 12) age eq_refl H1).
    rewrite (FFacts.above_not_below (F.of_Z 1) (F.of_Z 12) age eq_refl H1).
    rewrite (FFacts.above_not_below (F.of_Z 5) (F.of_Z 12) age eq_refl H1).
    now rewrite (FFacts.leb_not_ltb _ _ H1).
  - repeat match goal with
           | |- context [if ?b then _ else _] => destruct b
           end; set_solver.
Qed.

Lemma C9_estimate_weight_bands_witness :
  estimate_weight_by_age (F.of_ratio 75 10) = F.of_ratio 350 10.
Proof.
  apply (proj1 (proj2 (proj2 (proj2 C9_estimate_weight_bands))));
    reflexivity.
Defined.

(** ** The maximum-dose adjuster *)

Module AdjustFacts.
Import StrFacts ReFacts PatFacts.

(** The adjuster on a text whose first number and unit are [num] and [u]. *)
Lemma adjust_first_number (pre num ws u rest : string)
    (age weight v : F.float) :
  F.of_string num = Ok v →
  Str.all Str.is_space ws = true → is_unit u →
  first_at max_re pre (num +:+ ws +:+ u +:+ rest) →
  adjust_max_for_age_weight (pre +:+ num +:+ ws +:+ u +:+ rest) age weight
  = Ok (adjusted_text v u age weight).
Proof.
  intros Hv Hws Hu Hfirst.
  destruct (of_string_inv num v Hv) as (ip & fp & Hnum & Hip & Hfp).
  pose proof (max_match_at (String.length pre) ip fp ws u rest Hip Hfp Hws Hu)
    as Hm.
  rewrite <- Hnum in Hm.
  unfold adjust_max_for_age_weight.
  rewrite (search_first _ _ _ _ Hfirst Hm).
  unfold group_float, group_str, Re.group. cbn [Re.m_groups Re.lookup Nat.eqb].
  rewrite lookup_number_groups, <- Hnum. cbn [bind]. rewrite Hv. cbn [bind].
  unfold adjusted_text, reduce, age_reduction, weight_reduction.
  destruct (String.eqb u "g"), (F.geb age (F.of_Z 80)),
    (F.geb age (F.of_Z 65)), (F.ltb weight (F.of_Z 50));
    cbn [orb]; try reflexivity;
    match goal with
    | |- context [?a && ?b] => destruct (a && b)
    end; reflexivity.
Qed.

Lemma first_at_nil (r : Re.regex) (tail : string) : first_at r "" tail.
Proof.
  intros p1 p2 w rest Hp Hne. apply eq_sym, app_eq_nil in Hp as [_ ->].
  contradiction.
Qed.

(** Every text with a number followed by a unit has a first one, and the
    adjuster answers for it. *)
Lemma adjust_occurs (s : string) (age weight : F.float) :
  Re.occurs max_re s →
  ∃ pre num ws u rest v,
    s = pre +:+ num +:+ ws +:+ u +:+ rest
    ∧ F.of_string num = Ok v
    ∧ Str.all Str.is_space ws = true ∧ is_unit u
    ∧ first_at max_re pre (num +:+ ws +:+ u +:+ rest)
    ∧ adjust_max_for_age_weight s age weight
      = Ok (adjusted_text v u age weight).
Proof.
  intros H. apply occurs_first in H as (pre & w & rest & -> & Hw & Hfirst).
  apply max_lang_inv in Hw as (num & ws & u & v & -> & Hv & Hws & Hu).
  rewrite !app_assoc in Hfirst |- *.
  exists pre, num, ws, u, rest, v.
  repeat (split; [assumption || reflexivity|]).
  now apply adjust_first_number.
Qed.

End AdjustFacts.





(** ** The dose calculator *)

Module DoseFacts.
Import StrFacts ReFacts PatFacts.

Lemma of_string_nonempty (w : string) (v : F.float) :
  F.of_string w = Ok v → String.eqb w "" = false.
Proof. destruct w; [discriminate | reflexivity]. Qed.

(** The calculator on a text whose first per-kilogram dose has the bounds
    [lo] and [hi] and the unit [u], when [u] and "/kg" do not occur in the
    text before that dose. *)
Lemma per_kg_first (pre lo : string) (hi : option string)
    (ws u rest : string) (weight age vlo vhi : F.float) :
  F.of_string lo = Ok vlo →
  match hi with
  | Some h => F.of_string h = Ok vhi
  | None => vhi = vlo
  end →
  Str.all Str.is_space ws = true → is_unit u →
  first_at per_kg_re pre
    (lo +:+ range_text hi +:+ ws +:+ u +:+ "/kg" +:+ rest) →
  not_before (u +:+ "/kg")
    (pre +:+ lo +:+ range_text hi +:+ ws +:+ u +:+ "/kg" +:+ rest)
    (String.length (pre +:+ lo +:+ range_text hi +:+ ws)) →
  calculate_dose
    (pre +:+ lo +:+ range_text hi +:+ ws +:+ u +:+ "/kg" +:+ rest) weight age
  = Ok (per_kg_text vlo vhi u weight +:+ rest).
Proof.
  intros Hlo Hhi Hws Hu Hfirst Hfind.
  destruct (of_string_inv lo vlo Hlo) as (ip & fp & Hlo' & Hip & Hfp).
  assert (∃ hi', bound_text hi' = hi
                 ∧ ∀ hip hfp, hi' = Some (hip, hfp) →
                     F.nonempty_digits hip = true
                     ∧ ∀ f, hfp = Some f → F.nonempty_digits f = true)
    as (hi' & Hb & Hhi').
  { destruct hi as [h|].
    - destruct (of_string_inv h vhi Hhi) as (hip & hfp & -> & H1 & H2).
      exists (Some (hip, hfp)). split; [reflexivity|].
      now intros ? ? [= <- <-].
    - exists None. split; [reflexivity | discriminate]. }
  pose proof (per_kg_match_at (String.length pre) ip fp hi' ws u rest
                Hip Hfp Hhi' Hws Hu) as Hm.
  rewrite Hb, <- Hlo' in Hm.
  unfold calculate_dose.
  rewrite (search_first _ _ _ _ Hfirst Hm).
  set (s := pre +:+ lo +:+ range_text hi +:+ ws +:+ u +:+ "/kg" +:+ rest) in *.
  unfold group_float, group_true, group_str, Re.group. cbn [Re.m_groups].
  rewrite lookup_per_kg_1, lookup_per_kg_4, Hb, <- Hlo'.
  cbn [bind]. rewrite Hlo. cbn [bind].
  assert (Re.lookup 6 (per_kg_groups ip fp hi' u) = Some u) as -> by reflexivity.
  set (a := pre +:+ lo +:+ range_text hi +:+ ws) in *.
  assert (s = a +:+ (u +:+ "/kg") +:+ rest) as Hs
    by (unfold s, a; now rewrite !app_assoc).
  assert (Str.slice_from s
            (Str.find s (u +:+ "/kg") + Str.len u + 3) = rest) as Hsuffix.
  { rewrite Hs in Hfind |- *. rewrite (find_first _ _ _ Hfind).
    replace (Str.len a + Str.len u + 3)
      with (Str.len (a +:+ u +:+ "/kg"))
      by (rewrite !len_app; unfold Str.len; simpl; lia).
    rewrite <- (app_assoc a (u +:+ "/kg") rest).
    apply slice_from_app. }
  destruct hi as [h|].
  - rewrite (of_string_nonempty h vhi Hhi). cbn [negb bind].
    rewrite Hhi. cbn [bind]. rewrite Hsuffix. reflexivity.
  - subst vhi. cbn [bind]. rewrite Hsuffix. reflexivity.
Qed.

(** The calculator on a text whose first per-kilogram dose has the bounds
    [lo] and [hi] and the unit [u]: the scaled dose, and the text after
    the first [u] followed by "/kg" of the text. *)
Lemma per_kg_first_any (pre lo : string) (hi : option string)
    (ws u rest : string) (weight age vlo vhi : F.float) :
  F.of_string lo = Ok vlo →
  match hi with
  | Some h => F.of_string h = Ok vhi
  | None => vhi = vlo
  end →
  Str.all Str.is_space ws = true → is_unit u →
  first_at per_kg_re pre
    (lo +:+ range_text hi +:+ ws +:+ u +:+ "/kg" +:+ rest) →
  calculate_dose
    (pre +:+ lo +:+ range_text hi +:+ ws +:+ u +:+ "/kg" +:+ rest) weight age
  = Ok (per_kg_text vlo vhi u weight
        +:+ Str.slice_from
              (pre +:+ lo +:+ range_text hi +:+ ws +:+ u +:+ "/kg" +:+ rest)
              (Str.find
                 (pre +:+ lo +:+ range_text hi +:+ ws +:+ u +:+ "/kg" +:+ rest)
                 (u +:+ "/kg")
               + Str.len u + 3)).
Proof.
  intros Hlo Hhi Hws Hu Hfirst.
  destruct (of_string_inv lo vlo Hlo) as (ip & fp & Hlo' & Hip & Hfp).
  assert (∃ hi', bound_text hi' = hi
                 ∧ ∀ hip hfp, hi' = Some (hip, hfp) →
                     F.nonempty_digits hip = true
                     ∧ ∀ f, hfp = Some f → F.nonempty_digits f = true)
    as (hi' & Hb & Hhi').
  { destruct hi as [h|].
    - destruct (of_string_inv h vhi Hhi) as (hip & hfp & -> & H1 & H2).
      exists (Some (hip, hfp)). split; [reflexivity|].
      now intros ? ? [= <- <-].
    - exists None. split; [reflexivity | discriminate]. }
  pose proof (per_kg_match_at (String.length pre) ip fp hi' ws u rest
                Hip Hfp Hhi' Hws Hu) as Hm.
  rewrite Hb, <- Hlo' in Hm.
  unfold calculate_dose.
  rewrite (search_first _ _ _ _ Hfirst Hm).
  unfold group_float, group_true, group_str, Re.group. cbn [Re.m_groups].
  rewrite lookup_per_kg_1, lookup_per_kg_4, Hb, <- Hlo'.
  cbn [bind]. rewrite Hlo. cbn [bind].
  assert (Re.lookup 6 (per_kg_groups ip fp hi' u) = Some u) as -> by reflexivity.
  destruct hi as [h|].
  - rewrite (of_string_nonempty h vhi Hhi). cbn [negb bind].
    rewrite Hhi. reflexivity.
  - subst vhi. reflexivity.
Qed.


(** A text with no per-kilogram dose and no absolute dose is returned as
    it is, and so is a maximum text with no number and unit. *)
Lemma no_occurrence_unchanged (dose_text : string) (weight age : F.float) :
  ¬ Re.occurs per_kg_re dose_text → ¬ Re.occurs range_re dose_text →
  calculate_dose dose_text weight age = Ok dose_text.
Proof.
  intros H1 H2. unfold calculate_dose.
  apply search_None_iff in H1, H2. now rewrite H1, H2.
Qed.

(** Every text with a per-kilogram dose has a first one, and the
    calculator answers for it when the unit and "/kg" do not occur in the
    text before it. *)
Lemma per_kg_occurs (s : string) (weight age : F.float) :
  Re.occurs per_kg_re s →
  ∃ pre lo hi ws u rest vlo vhi,
    s = pre +:+ lo +:+ range_text hi +:+ ws +:+ u +:+ "/kg" +:+ rest
    ∧ F.of_string lo = Ok vlo
    ∧ match hi with
      | Some h => F.of_string h = Ok vhi
      | None => vhi = vlo
      end
    ∧ Str.all Str.is_space ws = true ∧ is_unit u
    ∧ first_at per_kg_re pre
        (lo +:+ range_text hi +:+ ws +:+ u +:+ "/kg" +:+ rest)
    ∧ (not_before (u +:+ "/kg") s
         (String.length (pre +:+ lo +:+ range_text hi +:+ ws)) →
       calculate_dose s weight age
       = Ok (per_kg_text vlo vhi u weight +:+ rest)).
Proof.
  intros H. apply occurs_first in H as (pre & w & rest & -> & Hw & Hfirst).
  apply per_kg_lang_inv in Hw
    as (lo & hi & ws & u & vlo & vhi & -> & Hlo & Hhi & Hws & Hu).
  rewrite !app_assoc in Hfirst |- *.
  exists pre, lo, hi, ws, u, rest, vlo, vhi.
  repeat (split; [assumption || reflexivity|]).
  intros Hfind. now apply per_kg_first.
Qed.

End DoseFacts.




(** C2.  The calculator on "give 2 g daily": the text after the chosen
    dose is cut after the first "g" of the whole text, not after the unit
    that was read, so the result is "2 give 2 g daily" and not
    "2 g daily"; the two examples of the specification hold. *)
Theorem C2_absolute_dose_suffix :
  calculate_dose "give 2 g daily" (F.of_Z 70) (F.of_Z 30)
  = Ok "2 give 2 g daily"
  ∧ calculate_dose "give 2 g daily" (F.of_Z 70) (F.of_Z 30) ≠ Ok "2 g daily"
  ∧ ¬ Re.occurs per_kg_re "give 2 g daily"
  ∧ Re.occurs range_re "give 2 g daily"
  ∧ calculate_dose "500–1000 mg every 6h" (F.of_Z 70) (F.of_Z 70)
    = Ok "500 mg every 6h"
  ∧ calculate_dose "500–1000 mg every 6h" (F.of_Z 70) (F.of_Z 30)
    = Ok "750 mg every 6h".
Proof.
  repeat split; try reflexivity.
  - vm_compute. discriminate.
  - apply ReFacts.search_None_iff. reflexivity.
  - now apply (ReFacts.search_Some_occurs range_re "give 2 g daily"
                 (Re.MkMatch 5 [(4%nat, "g"); (1%nat, "2")] " daily")).
Qed.



(** ** The dosage recommender *)

Module RecommendFacts.

Lemma dose_reads_ok (d : string) :
  dose_reads d = true → ∀ w a, ∃ out, calculate_dose d w a = Ok out.
Proof.
  intros H w a. unfold calculate_dose, dose_reads in *.
  destruct (Re.search per_kg_re d) as [m|].
  - apply andb_prop in H as [H H6]. apply andb_prop in H as [H1 H4].
    destruct (group_float 1 m); [|discriminate]. cbn [bind].
    destruct (group_true 4 m).
    + destruct (group_float 4 m); [|discriminate]. cbn [bind].
      destruct (group_str 6 m); [|discriminate]. cbn [bind]. eauto.
    + cbn [bind]. destruct (group_str 6 m); [|discriminate]. cbn [bind]. eauto.
  - destruct (Re.search range_re d) as [m|]; [|eauto].
    apply andb_prop in H as [H H4]. apply andb_prop in H as [H1 H3].
    destruct (group_int 1 m); [|discriminate]. cbn [bind].
    destruct (group_true 3 m).
    + destruct (group_int 3 m); [|discriminate]. cbn [bind].
      destruct (group_str 4 m); [|discriminate]. cbn [bind]. eauto.
    + cbn [bind]. destruct (group_str 4 m); [|discriminate]. cbn [bind]. eauto.
Qed.

Lemma max_reads_ok (d : string) :
  max_reads d = true → ∀ a w, ∃ out, adjust_max_for_age_weight d a w = Ok out.
Proof.
  intros H a w. unfold adjust_max_for_age_weight, max_reads in *.
  destruct (Re.search max_re d) as [m|]; [|eauto].
  apply andb_prop in H as [H1 H3].
  destruct (group_float 1 m); [|discriminate]. cbn [bind].
  destruct (group_str 3 m); [|discriminate]. cbn [bind].
  destruct (String.eqb _ "g");
    match goal with
    | |- context [if ?b then _ else _] => destruct b
    end; eauto.
Qed.

(** Every text of the table is one on which the conversions succeed, and
    no drug of the table has an empty list of rules. *)
Lemma table_reads :
  forallb
    (fun kv =>
       negb (Nat.eqb (length (snd kv)) 0)
       && forallb
            (fun r => dose_reads (dose r)
                      && max_reads (default "" (max r)))
            (snd kv))
    medications_items = true.
Proof. vm_compute. reflexivity. Qed.

Lemma table_rule (k : string) (rules : list DoseRule) :
  medications !! k = Some rules →
  rules ≠ []
  ∧ ∀ r, r ∈ rules →
      dose_reads (dose r) = true ∧ max_reads (default "" (max r)) = true.
Proof.
  intros Hk. unfold medications in Hk.
  apply elem_of_list_to_map_2, list_elem_of_In in Hk.
  pose proof table_reads as H. rewrite forallb_forall in H.
  specialize (H _ Hk). cbn [snd] in H.
  apply andb_prop in H as [Hne H]. split.
  - intros ->. discriminate.
  - intros r Hr. rewrite forallb_forall in H.
    apply list_elem_of_In in Hr. specialize (H _ Hr).
    now apply andb_prop in H.
Qed.

Lemma first_rule_Some (age : F.float) (rules : list DoseRule) (r : DoseRule) :
  first_rule age rules = Some r → r ∈ rules ∧ in_band age r = true.
Proof.
  induction rules as [|r' rules IHrules]; [discriminate|]. simpl.
  destruct (in_band age r') eqn:E.
  - intros [= <-]. split; [now left | exact E].
  - intros H. destruct (IHrules H). split; [now right | assumption].
Qed.

Lemma first_rule_None (age : F.float) (rules : list DoseRule) :
  first_rule age rules = None ↔ ∀ r, r ∈ rules → in_band age r = false.
Proof.
  induction rules as [|r' rules IHrules]; simpl.
  - split; [intros _ r Hr; inversion Hr | reflexivity].
  - destruct (in_band age r') eqn:E.
    + split; [discriminate|]. intros H.
      rewrite H in E by (now left). discriminate.
    + rewrite IHrules. split.
      * intros H r Hr. apply elem_of_cons in Hr as [->|Hr]; auto.
      * intros H r Hr. apply H. now right.
Qed.

(** With a rule for the age, the recommender assembles a recommendation
    with the weight it was given or, for none, the estimated one. *)
Lemma recommend_with_rule (name : string) (age : F.float)
    (w : option F.float) (rules : list DoseRule) (r : DoseRule) :
  medications !! Str.lower name = Some rules →
  first_rule age rules = Some r →
  ∃ dosage mx,
    recommend_dose name age w
    = Ok (Recommendation
            (MkRecommendation name age
               (match w with
                | None => estimate_weight_by_age age
                | Some x => x
                end) dosage mx)).
Proof.
  intros Hk Hr. unfold recommend_dose. rewrite Hk.
  destruct (table_rule _ _ Hk) as [Hne Hreads].
  destruct rules as [|r0 rules]; [contradiction|].
  rewrite Hr. apply first_rule_Some in Hr as [Hin _].
  destruct (Hreads r Hin) as [Hd Hm].
  set (weight := match w with None => _ | Some x => x end).
  destruct (dose_reads_ok _ Hd weight age) as [dosage ->].
  destruct (max_reads_ok _ Hm age weight) as [mx ->].
  cbn [bind]. eauto.
Qed.


Lemma recommend_no_rule (name : string) (age : F.float)
    (w : option F.float) (rules : list DoseRule) :
  medications !! Str.lower name = Some rules →
  first_rule age rules = None →
  recommend_dose name age w = Ok (Error (NoDosingRule name age)).
Proof.
  intros Hk Hr. unfold recommend_dose. rewrite Hk.
  destruct (table_rule _ _ Hk) as [Hne _].
  destruct rules as [|r0 rules]; [contradiction|]. now rewrite Hr.
Qed.

End RecommendFacts.

(** C4.  amended: for a drug of the table and an age inside one of its
    bands, the recommendation carries the estimator's weight for that age
    when no weight is given, and the given weight whenever one is given,
    a zero or a negative one included. *)
Theorem C4_recommended_weight :
  ∀ name age rules r,
    medications !! Str.lower name = Some rules →
    r ∈ rules → in_band age r = true →
    (∃ rec, recommend_dose name age None = Ok (Recommendation rec)
            ∧ weight_kg rec = estimate_weight_by_age age)
    ∧ (∀ w, ∃ rec, recommend_dose name age (Some w) = Ok (Recommendation rec)
                   ∧ weight_kg rec = w).
Proof.
  intros name age rules r Hk Hin Hband.
  destruct (first_rule age rules) as [r'|] eqn:Hr.
  - split; [|intros w].
    + destruct (RecommendFacts.recommend_with_rule name age None _ _ Hk Hr)
        as (d & m & ->). eauto.
    + destruct (RecommendFacts.recommend_with_rule name age (Some w) _ _ Hk Hr)
        as (d & m & ->). eauto.
  - rewrite RecommendFacts.first_rule_None in Hr.
    rewrite (Hr r Hin) in Hband. discriminate.
Qed.

Lemma C4_recommended_weight_witness :
  (∃ rec, recommend_dose "Ibuprofen" (F.of_Z 8) None = Ok (Recommendation rec)
          ∧ weight_kg rec = estimate_weight_by_age (F.of_Z 8))
  ∧ (∃ rec, recommend_dose "Ibuprofen" (F.of_Z 8) (Some (F.of_Z 25))
            = Ok (Recommendation rec)
            ∧ weight_kg rec = F.of_Z 25).
Proof.
  destruct (C4_recommended_weight "Ibuprofen" (F.of_Z 8)
              [ rule (F.of_ratio 5 10) (F.of_Z 1) "5 mg/kg every 8h"
                  "40 mg/kg/day";
                rule (F.of_Z 1) (F.of_Z 12) "10 mg/kg every 6–8h"
                  "40 mg/kg/day";
                rule (F.of_Z 12) (F.of_Z 200) "200–400 mg every 6h"
                  "1200 mg/day (OTC)" ]
              (rule (F.of_Z 1) (F.of_Z 12) "10 mg/kg every 6–8h"
                 "40 mg/kg/day")) as [Hnone Hsome].
  - reflexivity.
  - right. left.
  - reflexivity.
  - split; [exact Hnone | exact (Hsome (F.of_Z 25))].
Defined.

(** C4, as it is worded, fails for a given weight of zero: the
    recommendation for paracetamol at 30 years carries the weight 0 and
    not the estimated 70 kg. *)
Lemma C4_counterexample :
  ∃ rec,
    recommend_dose "paracetamol" (F.of_Z 30) (Some (F.of_Z 0))
    = Ok (Recommendation rec)
    ∧ weight_kg rec = F.of_Z 0
    ∧ weight_kg rec ≠ estimate_weight_by_age (F.of_Z 30).
Proof.
  eexists. split; [vm_compute; reflexivity|]. split; [reflexivity|].
  vm_compute. discriminate.
Qed.



(** ** The local interaction matcher *)

Section MatcherFacts.

Variable token_sort_ratio : string → string → Q.
Variable iter_set : gset string → list string.

(** The best match is a choice, with its score, and no choice scores
    higher. *)
Lemma best_of_spec (query : string) (choices : list string) :
  ∀ best c sc,
    best_of token_sort_ratio query choices best = Some (c, sc) →
    (best = Some (c, sc) ∨ (c ∈ choices ∧ sc = token_sort_ratio query c))
    ∧ (∀ c', c' ∈ choices → (token_sort_ratio query c' <= sc)%Q)
    ∧ (∀ c0 b0, best = Some (c0, b0) → (b0 <= sc)%Q).
Proof.
  induction choices as [|x choices IHc]; intros best c sc H; simpl in H.
  - subst best. split; [auto|]. split.
    + intros c' Hc'. inversion Hc'.
    + intros c0 b0 [= <- <-]. apply Qle_refl.
  - destruct best as [[c0 b0]|].
    + destruct (Qle_bool (token_sort_ratio query x) b0) eqn:E.
      * destruct (IHc _ _ _ H) as (H1 & H2 & H3).
        split; [destruct H1 as [H1|[H1 ->]];
                  [auto | right; split; [now right | reflexivity]]|].
        split; [|exact H3].
        intros c' Hc'. apply elem_of_cons in Hc' as [->|Hc']; [|auto].
        apply Qle_bool_iff in E.
        apply Qle_trans with b0; [exact E | now apply (H3 c0)].
      * destruct (IHc _ _ _ H) as (H1 & H2 & H3).
        assert (b0 <= token_sort_ratio query x)%Q as Hlt.
        { apply Qlt_le_weak, Qnot_le_lt. intros Hle.
          apply Qle_bool_iff in Hle. congruence. }
        split; [|split].
        -- destruct H1 as [[= <- <-]|[H1 ->]]; right;
             (split; [(now left) || (now right) | reflexivity]).
        -- intros c' Hc'. apply elem_of_cons in Hc' as [->|Hc']; [|auto].
           now apply (H3 x).
        -- intros c1 b1 [= <- <-].
           apply Qle_trans with (token_sort_ratio query x);
             [exact Hlt | now apply (H3 x)].
    + destruct (IHc _ _ _ H) as (H1 & H2 & H3).
      split; [|split].
      * destruct H1 as [[= <- <-]|[H1 ->]]; right;
          (split; [(now left) || (now right) | reflexivity]).
      * intros c' Hc'. apply elem_of_cons in Hc' as [->|Hc']; [|auto].
        now apply (H3 x).
      * discriminate.
Qed.

Lemma resolve_Some (db : list string) (thr : Z) (d c : string) :
  resolve token_sort_ratio db thr d = Some c →
  c ∈ db
  ∧ (inject_Z thr <= token_sort_ratio (Str.lower d) c)%Q
  ∧ ∀ c', c' ∈ db →
      (token_sort_ratio (Str.lower d) c' <= token_sort_ratio (Str.lower d) c)%Q.
Proof.
  unfold resolve, extractOne.
  destruct (best_of _ _ db None) as [[c0 sc]|] eqn:E; [|discriminate].
  destruct (Qle_bool (inject_Z thr) sc) eqn:Hthr; [|discriminate].
  intros [= <-]. apply best_of_spec in E as (H1 & H2 & _).
  destruct H1 as [H1|[H1 ->]]; [discriminate|].
  split; [exact H1|]. split; [now apply Qle_bool_iff | exact H2].
Qed.


Lemma lookup_build_mapping (db : list string) (thr : Z) (names : list string) :
  ∀ (m0 : gmap string (option string)) d,
    fold_left (fun m d => <[ d := resolve token_sort_ratio db thr d ]> m) names m0 !! d
    = if decide (d ∈ names) then Some (resolve token_sort_ratio db thr d) else m0 !! d.
Proof.
  induction names as [|x names IHn]; intros m0 d; cbn [fold_left].
  - destruct (decide (d ∈ [])) as [Hin|_]; [inversion Hin | reflexivity].
  - rewrite IHn.
    destruct (decide (d ∈ names)) as [Hin|Hnin],
             (decide (d ∈ x :: names)) as [Hin'|Hnin'].
    + reflexivity.
    + exfalso. apply Hnin'. now right.
    + apply elem_of_cons in Hin' as [->|Hin']; [|contradiction].
      apply lookup_insert_eq.
    + apply lookup_insert_ne. intros ->. apply Hnin'. now left.
Qed.

Lemma combinations2_elem (a b : string) (l : list string) :
  (a, b) ∈ combinations2 l → a ∈ l ∧ b ∈ l.
Proof.
  induction l as [|x l IHl]; simpl; [intros H; inversion H|].
  rewrite elem_of_app, list_elem_of_fmap.
  intros [(y & [= -> ->] & Hy)|H]; [split; [now left | now right]|].
  destruct (IHl H). split; now right.
Qed.

(** The loop over the records adds one pair for each matching record. *)
Lemma inner_loop (a b ma mb : string) (records : list InteractionRecord) :
  ∀ found,
    fold_left
      (fun found rec =>
         if record_matches ma mb rec
         then found ++ [matched_pair a b ma mb rec]
         else found)
      records found
    = found ++ map (matched_pair a b ma mb)
                 (filter (fun rec => record_matches ma mb rec = true) records).
Proof.
  induction records as [|rec records IHr]; intros found; simpl.
  - now rewrite app_nil_r.
  - rewrite IHr. destruct (record_matches ma mb rec) eqn:E.
    + rewrite filter_cons_True by exact E. simpl.
      now rewrite <- app_assoc.
    + rewrite filter_cons_False; [reflexivity|]. now rewrite E.
Qed.

Lemma truthy_resolve (records : list InteractionRecord) (thr : Z) (d : string) :
  truthy (Some (resolve token_sort_ratio (db_list iter_set records) thr d))
  = resolve token_sort_ratio (db_list iter_set records) thr d.
Proof.
  destruct (resolve token_sort_ratio (db_list iter_set records) thr d) as [c|] eqn:E; [|reflexivity].
  apply resolve_Some in E as (Hc & _).
  unfold db_list in Hc. apply list_elem_of_filter in Hc as [Hne _].
  simpl. destruct (String.eqb_spec c ""); [contradiction | reflexivity].
Qed.

(** The matcher returns, pair of names by pair of names, the matched
    pairs of the records that name the two canonical drugs. *)
Lemma find_ddi_local_pairs (names : list string)
    (records : list InteractionRecord) (thr : Z) :
  find_ddi_local token_sort_ratio iter_set names records thr
  = flat_map (pair_hits (resolve token_sort_ratio (db_list iter_set records) thr) records)
      (combinations2 names).
Proof.
  unfold find_ddi_local.
  set (mapping := build_mapping _ _ _ _).
  assert (∀ d, d ∈ names →
               truthy (mapping !! d) = resolve token_sort_ratio (db_list iter_set records) thr d)
    as Hmap.
  { intros d Hd. unfold mapping, build_mapping.
    rewrite lookup_build_mapping, decide_True by exact Hd.
    apply truthy_resolve. }
  match goal with
  | |- fold_left ?F _ _ = _ => set (step := F)
  end.
  assert (∀ combos found,
            (∀ a b, (a, b) ∈ combos → a ∈ names ∧ b ∈ names) →
            fold_left step combos found
            = found ++ flat_map (pair_hits (resolve token_sort_ratio (db_list iter_set records) thr)
                                   records) combos)
    as Hloop.
  { induction combos as [|[a b] combos IHc]; intros found Hin; simpl.
    - now rewrite app_nil_r.
    - destruct (Hin a b) as [Ha Hb]; [left|].
      rewrite IHc by (intros; apply Hin; now right).
      rewrite (Hmap a Ha), (Hmap b Hb). unfold pair_hits. cbn [fst snd].
      destruct (resolve token_sort_ratio (db_list iter_set records) thr a) as [ma|];
        [|reflexivity].
      destruct (resolve token_sort_ratio (db_list iter_set records) thr b) as [mb|];
        [|reflexivity].
      now rewrite inner_loop, <- app_assoc. }
  apply (Hloop _ []). intros a b. apply combinations2_elem.
Qed.

Lemma elem_of_pair_hits (resolved : string → option string)
    (records : list InteractionRecord) (ab : string * string) (p : MatchedPair) :
  p ∈ pair_hits resolved records ab →
  mp_drug_a p = fst ab ∧ mp_drug_b p = snd ab
  ∧ resolved (fst ab) = Some (mp_matched_a p)
  ∧ resolved (snd ab) = Some (mp_matched_b p).
Proof.
  unfold pair_hits.
  destruct (resolved (fst ab)) as [ma|]; [|intros H; inversion H].
  destruct (resolved (snd ab)) as [mb|]; [|intros H; inversion H].
  rewrite list_elem_of_fmap. intros (rec & -> & _). auto.
Qed.


Hypothesis iter_set_perm : ∀ X, iter_set X ≡ₚ elements X.



End MatcherFacts.






(** ** More on the dose calculator and the adjuster *)

Module RangeFacts.
Import StrFacts ReFacts PatFacts.

Lemma lookup_range_1 (lo : string) (hi : option string) (u : string) :
  Re.lookup 1 (range_groups lo hi u) = Some lo.
Proof. now destruct hi. Qed.

Lemma lookup_range_3 (lo : string) (hi : option string) (u : string) :
  Re.lookup 3 (range_groups lo hi u) = hi.
Proof. now destruct hi. Qed.

Lemma lookup_range_4 (lo : string) (hi : option string) (u : string) :
  Re.lookup 4 (range_groups lo hi u) = Some u.
Proof. reflexivity. Qed.

(** [range_re] on digits, an optional upper bound, white space and a
    unit. *)
Lemma range_match_at (i : nat) (lo : string) (hi : option string)
    (ws u rest : string) :
  F.nonempty_digits lo = true →
  (∀ h, hi = Some h → F.nonempty_digits h = true) →
  Str.all Str.is_space ws = true → is_unit u →
  Re.match_at range_re i (lo +:+ range_text hi +:+ ws +:+ u +:+ rest)
  = Some (Re.MkMatch i (range_groups lo hi u) rest).
Proof.
  intros Hlo Hhi Hws Hu. unfold Re.match_at, range_re.
  destruct (nonempty_digits_inv lo Hlo) as [Hne Hd].
  pose proof (number_stop_digit _ (stop_spaces_unit ws u rest Hws Hu)) as Hstop.
  change (Re.matchk (Re.Seq ?a ?b) ?s ?g ?k)
    with (Re.matchk a s g (fun s' g' => Re.matchk b s' g' k)).
  apply Group_exec.
  destruct hi as [h|]; unfold range_text, range_groups.
  - destruct (nonempty_digits_inv h (Hhi h eq_refl)) as [Hhne Hhd].
    set (t := ws +:+ u +:+ rest) in *.
    apply Plus_exec; [exact Hne | exact Hd | reflexivity |].
    cbv beta. rewrite consumed_app.
    change (Re.matchk (Re.Seq ?a ?b) ?s ?g ?k)
      with (Re.matchk a s g (fun s' g' => Re.matchk b s' g' k)).
    apply Opt_exec. apply Group_exec.
    change (Re.matchk (Re.Seq ?a ?b) ?s ?g ?k)
      with (Re.matchk a s g (fun s' g' => Re.matchk b s' g' k)).
    rewrite (app_assoc endash). apply Lit_exec. apply Group_exec.
    apply Plus_exec; [exact Hhne | exact Hhd | exact Hstop |].
    cbv beta. rewrite <- (app_assoc endash), !consumed_app. subst t.
    change (Re.matchk (Re.Seq ?a ?b) ?s ?g ?k)
      with (Re.matchk a s g (fun s' g' => Re.matchk b s' g' k)).
    apply Star_exec; [exact Hws | now apply unit_not_space |].
    now apply unit_exec.
  - rewrite app_nil_l.
    apply Plus_exec; [exact Hne | exact Hd | exact Hstop |].
    cbv beta. rewrite consumed_app.
    change (Re.matchk (Re.Seq ?a ?b) ?s ?g ?k)
      with (Re.matchk a s g (fun s' g' => Re.matchk b s' g' k)).
    apply Opt_skip.
    + cbn [Re.matchk]. now rewrite no_dash_spaces_unit.
    + change (Re.matchk (Re.Seq ?a ?b) ?s ?g ?k)
        with (Re.matchk a s g (fun s' g' => Re.matchk b s' g' k)).
      apply Star_exec; [exact Hws | now apply unit_not_space |].
      now apply unit_exec.
Qed.

(** An occurrence of [range_re] is digits, an optional upper bound, white
    space and a unit. *)
Lemma range_lang_inv (w : string) :
  Re.lang range_re w →
  ∃ lo hi ws u,
    w = lo +:+ range_text hi +:+ ws +:+ u
    ∧ F.nonempty_digits lo = true
    ∧ (∀ h, hi = Some h → F.nonempty_digits h = true)
    ∧ Str.all Str.is_space ws = true ∧ is_unit u.
Proof.
  unfold range_re. cbn [Re.lang].
  intros (lo & w2 & -> & [Hne Hlo] & r & w3 & -> & Hr & ws & u & -> & Hws & Hu).
  apply unit_lang_inv in Hu.
  destruct Hr as [->|(d & h & -> & -> & Hhne & Hh)].
  - exists lo, None, ws, u. split; [reflexivity|].
    split; [now apply nonempty_digits_intro|]. split; [discriminate | auto].
  - exists lo, (Some h), ws, u. split; [reflexivity|].
    split; [now apply nonempty_digits_intro|].
    split; [|auto]. intros ? [= <-]. now apply nonempty_digits_intro.
Qed.

Lemma nonempty_digits_nonempty (w : string) :
  F.nonempty_digits w = true → String.eqb w "" = false.
Proof. destruct w; [discriminate | reflexivity]. Qed.

Lemma int_of_string_inv (w : string) (v : Z) :
  int_of_string w = Ok v →
  F.nonempty_digits w = true ∧ v = Str.digits_value 0 w.
Proof.
  unfold int_of_string. destruct (F.nonempty_digits w); [|discriminate].
  now intros [= <-].
Qed.

(** The calculator on a text with no per-kilogram dose whose first
    absolute dose has the bounds [lo] and [hi] and the unit [u]: the
    chosen dose, the unit, and the text after the first [u] of the text. *)
Lemma range_first_any (pre lo : string) (hi : option string)
    (ws u rest : string) (weight age : F.float) (vlo vhi : Z) :
  int_of_string lo = Ok vlo →
  match hi with
  | Some h => int_of_string h = Ok vhi
  | None => vhi = vlo
  end →
  Str.all Str.is_space ws = true → is_unit u →
  ¬ Re.occurs per_kg_re (pre +:+ lo +:+ range_text hi +:+ ws +:+ u +:+ rest) →
  first_at range_re pre (lo +:+ range_text hi +:+ ws +:+ u +:+ rest) →
  calculate_dose (pre +:+ lo +:+ range_text hi +:+ ws +:+ u +:+ rest)
    weight age
  = Ok (Str.of_Z (chosen_dose vlo vhi age) +:+ " " +:+ u
        +:+ Str.slice_from
              (pre +:+ lo +:+ range_text hi +:+ ws +:+ u +:+ rest)
              (Str.find (pre +:+ lo +:+ range_text hi +:+ ws +:+ u +:+ rest) u
               + Str.len u)).
Proof.
  intros Hlo Hhi Hws Hu Hno Hfirst.
  destruct (int_of_string_inv lo vlo Hlo) as [Hdlo _].
  assert (∀ h, hi = Some h → F.nonempty_digits h = true) as Hdhi.
  { intros h ->. now destruct (int_of_string_inv h vhi Hhi). }
  pose proof (range_match_at (String.length pre) lo hi ws u rest
                Hdlo Hdhi Hws Hu) as Hm.
  unfold calculate_dose.
  apply search_None_iff in Hno. rewrite Hno.
  rewrite (search_first _ _ _ _ Hfirst Hm).
  unfold group_int, group_true, group_str, Re.group. cbn [Re.m_groups].
  rewrite lookup_range_1, lookup_range_3, lookup_range_4.
  cbn [bind]. rewrite Hlo. cbn [bind].
  destruct hi as [h|].
  - rewrite (nonempty_digits_nonempty h (Hdhi h eq_refl)). cbn [negb bind].
    rewrite Hhi. reflexivity.
  - subst vhi. reflexivity.
Qed.

(** Every text with an absolute dose has a first one. *)
Lemma range_occurs (s : string) :
  Re.occurs range_re s →
  ∃ pre lo hi ws u rest vlo vhi,
    s = pre +:+ lo +:+ range_text hi +:+ ws +:+ u +:+ rest
    ∧ int_of_string lo = Ok vlo
    ∧ match hi with
      | Some h => int_of_string h = Ok vhi
      | None => vhi = vlo
      end
    ∧ Str.all Str.is_space ws = true ∧ is_unit u
    ∧ first_at range_re pre (lo +:+ range_text hi +:+ ws +:+ u +:+ rest).
Proof.
  intros H. apply occurs_first in H as (pre & w & rest & -> & Hw & Hfirst).
  apply range_lang_inv in Hw as (lo & hi & ws & u & -> & Hlo & Hhi & Hws & Hu).
  rewrite !app_assoc in Hfirst |- *.
  exists pre, lo, hi, ws, u, rest, (Str.digits_value 0 lo),
    (match hi with Some h => Str.digits_value 0 h
                 | None => Str.digits_value 0 lo end).
  split; [reflexivity|]. unfold int_of_string. rewrite Hlo.
  split; [reflexivity|]. split; [|auto].
  destruct hi as [h|]; [|reflexivity]. now rewrite (Hhi h eq_refl).
Qed.

End RangeFacts.

Module EngineFacts.
Import StrFacts ReFacts PatFacts.

Lemma adjusted_text_suffix (v : F.float) (u : string) (age weight : F.float) :
  ∃ body, adjusted_text v u age weight = body +:+ "/day (adjusted)".
Proof.
  unfold adjusted_text.
  set (unit := if String.eqb u "g" then "mg" else u).
  set (value := reduce _ _).
  destruct (_ || _).
  - exists (F.format_fixed 1 (F.div value (F.of_Z 1000)) +:+ " g").
    now rewrite app_assoc.
  - exists (F.format_fixed 0 value +:+ " " +:+ unit).
    now rewrite !app_assoc.
Qed.

(** The calculator answers on every text with a per-kilogram dose. *)
Lemma per_kg_answers (s : string) (weight age : F.float) :
  Re.occurs per_kg_re s →
  ∃ vlo vhi u,
    is_unit u
    ∧ calculate_dose s weight age
      = Ok (per_kg_text vlo vhi u weight
            +:+ Str.slice_from s
                  (Str.find s (u +:+ "/kg") + Str.len u + 3)).
Proof.
  intros H. apply occurs_first in H as (pre & w & rest & -> & Hw & Hfirst).
  apply per_kg_lang_inv in Hw
    as (lo & hi & ws & u & vlo & vhi & -> & Hlo & Hhi & Hws & Hu).
  rewrite !app_assoc in Hfirst |- *.
  exists vlo, vhi, u. split; [exact Hu|].
  now apply DoseFacts.per_kg_first_any with (lo := lo) (hi := hi).
Qed.

(** The calculator answers on every text with an absolute dose and no
    per-kilogram dose. *)
Lemma range_answers (s : string) (weight age : F.float) :
  ¬ Re.occurs per_kg_re s → Re.occurs range_re s →
  ∃ vlo vhi u,
    is_unit u
    ∧ calculate_dose s weight age
      = Ok (Str.of_Z (chosen_dose vlo vhi age) +:+ " " +:+ u
            +:+ Str.slice_from s (Str.find s u + Str.len u)).
Proof.
  intros Hno H.
  apply RangeFacts.range_occurs in H
    as (pre & lo & hi & ws & u & rest & vlo & vhi
        & -> & Hlo & Hhi & Hws & Hu & Hfirst).
  exists vlo, vhi, u. split; [exact Hu|].
  now apply RangeFacts.range_first_any.
Qed.

Lemma occurs_dec (r : Re.regex) (s : string) :
  Re.occurs r s ∨ ¬ Re.occurs r s.
Proof.
  destruct (Re.search r s) as [m|] eqn:E.
  - left. now apply search_Some_occurs with m.
  - right. now apply search_None_iff.
Qed.

Lemma chosen_dose_bounds (low high : Z) (age : F.float) :
  low <= high → low <= chosen_dose low high age <= high.
Proof.
  intros H. unfold chosen_dose. destruct (F.geb age (F.of_Z 65)); [lia|].
  split.
  - apply Z.div_le_lower_bound; lia.
  - apply Z.div_le_upper_bound; lia.
Qed.

(** The calculator on a text with no per-kilogram dose whose first
    absolute dose has the unit [u], when [u] does not occur in the text
    before that unit. *)
Lemma range_first (pre lo : string) (hi : option string)
    (ws u rest : string) (weight age : F.float) (vlo vhi : Z) :
  int_of_string lo = Ok vlo →
  match hi with
  | Some h => int_of_string h = Ok vhi
  | None => vhi = vlo
  end →
  Str.all Str.is_space ws = true → is_unit u →
  ¬ Re.occurs per_kg_re
      (pre +:+ lo +:+ range_text hi +:+ ws +:+ u +:+ rest) →
  first_at range_re pre (lo +:+ range_text hi +:+ ws +:+ u +:+ rest) →
  not_before u (pre +:+ lo +:+ range_text hi +:+ ws +:+ u +:+ rest)
    (String.length (pre +:+ lo +:+ range_text hi +:+ ws)) →
  calculate_dose (pre +:+ lo +:+ range_text hi +:+ ws +:+ u +:+ rest)
    weight age
  = Ok (Str.of_Z (chosen_dose vlo vhi age) +:+ " " +:+ u +:+ rest).
Proof.
  intros Hlo Hhi Hws Hu Hno Hfirst Hfind.
  rewrite (RangeFacts.range_first_any pre lo hi ws u rest weight age vlo vhi
             Hlo Hhi Hws Hu Hno Hfirst).
  set (a := pre +:+ lo +:+ range_text hi +:+ ws) in *.
  assert (pre +:+ lo +:+ range_text hi +:+ ws +:+ u +:+ rest
          = a +:+ u +:+ rest) as Hs
    by (unfold a; now rewrite !app_assoc).
  rewrite Hs in Hfind |- *. rewrite (find_first _ _ _ Hfind).
  rewrite <- len_app, <- (app_assoc a u rest).
  now rewrite slice_from_app.
Qed.

End EngineFacts.

(** X1.  The maximum adjuster raises on no text, whatever the age and
    the weight; a text in which a number followed by a unit occurs gets
    an answer that ends in "/day (adjusted)"; and a text of ASCII
    characters and en dashes with no number followed by a unit is
    returned as it is. *)
Theorem adjust_max_never_raises :
  ∀ max_str age weight,
    ∃ out, adjust_max_for_age_weight max_str age weight = Ok out
           ∧ (plain max_str = true →
              ¬ Re.occurs max_re max_str → out = max_str)
           ∧ (Re.occurs max_re max_str →
              ∃ body, out = body +:+ "/day (adjusted)").
Proof.
  intros s age weight.
  destruct (EngineFacts.occurs_dec max_re s) as [H|H].
  - destruct (AdjustFacts.adjust_occurs s age weight H)
      as (pre & num & ws & u & rest & v & _ & _ & _ & _ & _ & E).
    exists (adjusted_text v u age weight). split; [exact E|].
    split; [contradiction|]. intros _. apply EngineFacts.adjusted_text_suffix.
  - exists s. unfold adjust_max_for_age_weight.
    apply ReFacts.search_None_iff in H as E. rewrite E.
    split; [reflexivity|]. split; [reflexivity | contradiction].
Qed.

(** X2.  The dose calculator raises on no text of at most 4300 characters
    (the length up to which Python converts any digits to [int]),
    whatever the weight and the age: the numbers that its patterns find
    are always read. *)
Theorem calculate_dose_never_raises :
  ∀ dose_str weight age,
    (String.length dose_str <= 4300)%nat →
    ∃ out, calculate_dose dose_str weight age = Ok out.
Proof.
  intros s weight age _.
  destruct (EngineFacts.occurs_dec per_kg_re s) as [H|H].
  - destruct (EngineFacts.per_kg_answers s weight age H)
      as (vlo & vhi & u & _ & E).
    eexists. exact E.
  - destruct (EngineFacts.occurs_dec range_re s) as [H2|H2].
    + destruct (EngineFacts.range_answers s weight age H H2)
        as (vlo & vhi & u & _ & E).
      eexists. exact E.
    + exists s. now apply DoseFacts.no_occurrence_unchanged.
Qed.

Lemma calculate_dose_never_raises_witness :
  ∃ out, calculate_dose "0.07 mg/kg once daily" (F.of_Z 20) (F.of_Z 7)
         = Ok out.
Proof.
  apply calculate_dose_never_raises. vm_compute. lia.
Defined.

(** X3.  On a dose text of ASCII characters and en dashes, at most 4300
    characters long, with no per-kilogram dose, whose first absolute dose
    is [lo], an optional en dash and [hi], white space and the unit [u],
    when the text of [u] does not occur in the dose text before that
    unit, the calculator returns the chosen dose, a space, the unit and
    the rest of the text after the unit; the chosen dose is the lower
    bound from 65 years and else the floor of the mean of the bounds, and
    it lies between the bounds when they are in order. *)
Theorem absolute_dose_at_first_unit :
  ∀ pre lo hi ws u rest weight age vlo vhi,
    plain (pre +:+ lo +:+ range_text hi +:+ ws +:+ u +:+ rest) = true →
    (String.length (pre +:+ lo +:+ range_text hi +:+ ws +:+ u +:+ rest)
     <= 4300)%nat →
    int_of_string lo = Ok vlo →
    match hi with
    | Some h => int_of_string h = Ok vhi
    | None => vhi = vlo
    end →
    Str.all Str.is_space ws = true → is_unit u →
    ¬ Re.occurs per_kg_re
        (pre +:+ lo +:+ range_text hi +:+ ws +:+ u +:+ rest) →
    first_at range_re pre (lo +:+ range_text hi +:+ ws +:+ u +:+ rest) →
    not_before u (pre +:+ lo +:+ range_text hi +:+ ws +:+ u +:+ rest)
      (String.length (pre +:+ lo +:+ range_text hi +:+ ws)) →
    calculate_dose (pre +:+ lo +:+ range_text hi +:+ ws +:+ u +:+ rest)
      weight age
    = Ok (Str.of_Z (if F.geb age (F.of_Z 65) then vlo else (vlo + vhi) / 2)
          +:+ " " +:+ u +:+ rest)
    ∧ (vlo <= vhi →
       vlo <= (if F.geb age (F.of_Z 65) then vlo else (vlo + vhi) / 2)
           <= vhi).
Proof.
  intros pre lo hi ws u rest weight age vlo vhi _ _
    Hlo Hhi Hws Hu Hno Hfirst Hfind.
  split; [|apply EngineFacts.chosen_dose_bounds].
  now apply EngineFacts.range_first.
Qed.

Lemma absolute_dose_at_first_unit_witness :
  calculate_dose
    ("take " +:+ "500" +:+ range_text (Some "1000") +:+ " " +:+ "mg"
     +:+ " every 6h")
    (F.of_Z 70) (F.of_Z 30)
  = Ok (Str.of_Z (if F.geb (F.of_Z 30) (F.of_Z 65) then 500
                  else (500 + 1000) / 2) +:+ " " +:+ "mg"
        +:+ " every 6h")
  ∧ (500 <= 1000 →
     500 <= (if F.geb (F.of_Z 30) (F.of_Z 65) then 500
             else (500 + 1000) / 2) <= 1000).
Proof.
  apply absolute_dose_at_first_unit.
  - reflexivity.
  - vm_compute. lia.
  - reflexivity.
  - reflexivity.
  - reflexivity.
  - unfold is_unit. auto.
  - apply ReFacts.search_None_iff. reflexivity.
  - apply ReFacts.first_at_b_sound. reflexivity.
  - apply StrFacts.find_not_before. vm_compute. discriminate.
Defined.

(** X4.  The answer for a text with a per-kilogram dose does not depend
    on the age, and the answer for a text of ASCII characters and en
    dashes with no per-kilogram dose does not depend on the weight. *)
Theorem calculate_dose_dependence :
  (∀ dose_str weight age age',
     Re.occurs per_kg_re dose_str →
     calculate_dose dose_str weight age = calculate_dose dose_str weight age')
  ∧ (∀ dose_str weight weight' age,
       plain dose_str = true →
       ¬ Re.occurs per_kg_re dose_str →
       calculate_dose dose_str weight age
       = calculate_dose dose_str weight' age).
Proof.
  split.
  - intros s weight age age' H. unfold calculate_dose.
    destruct (Re.search per_kg_re s) as [m|] eqn:E; [reflexivity|].
    apply ReFacts.search_None_iff in E. contradiction.
  - intros s weight weight' age _ H. unfold calculate_dose.
    apply ReFacts.search_None_iff in H. now rewrite H.
Qed.

(** ** More on the table of dosing rules and the recommender *)

Module TableFacts.

(** Two floats that are no NaN are ordered one way or the other. *)
Lemma ltb_false_leb (x d : F.float) :
  F.leb x x = true → F.leb d d = true → F.ltb x d = false → F.leb d x = true.
Proof.
  unfold F.leb, F.ltb, SFleb, SFltb, SFcompare.
  destruct x as [sx|sx| |sx mx ex], d as [sd|sd| |sd md ed];
    try destruct sx; try destruct sd; simpl;
    try discriminate; try reflexivity; intros; FFacts.cmp_cases.
Qed.

Lemma leb_refl_l (a b : F.float) : F.leb a b = true → F.leb a a = true.
Proof.
  unfold F.leb, SFleb, SFcompare.
  destruct a as [sa|sa| |sa ma ea], b as [sb|sb| |sb mb eb];
    try destruct sa; try destruct sb; simpl;
    try discriminate; try reflexivity; intros;
    rewrite ?Z.compare_refl, ?Pos.compare_cont_refl; simpl;
    rewrite ?Pos.compare_cont_refl; reflexivity.
Qed.

Lemma leb_refl_r (a b : F.float) : F.leb a b = true → F.leb b b = true.
Proof.
  unfold F.leb, SFleb, SFcompare.
  destruct a as [sa|sa| |sa ma ea], b as [sb|sb| |sb mb eb];
    try destruct sa; try destruct sb; simpl;
    try discriminate; try reflexivity; intros;
    rewrite ?Z.compare_refl, ?Pos.compare_cont_refl; simpl;
    rewrite ?Pos.compare_cont_refl; reflexivity.
Qed.

Lemma ltb_refl_l (a b : F.float) : F.ltb a b = true → F.leb a a = true.
Proof.
  unfold F.leb, F.ltb, SFleb, SFltb, SFcompare.
  destruct a as [sa|sa| |sa ma ea], b as [sb|sb| |sb mb eb];
    try destruct sa; try destruct sb; simpl;
    try discriminate; try reflexivity; intros;
    rewrite ?Z.compare_refl, ?Pos.compare_cont_refl; simpl;
    rewrite ?Pos.compare_cont_refl; reflexivity.
Qed.

Lemma ltb_leb (a b : F.float) : F.ltb a b = true → F.leb a b = true.
Proof.
  unfold F.leb, F.ltb, SFleb, SFltb.
  destruct (SFcompare a b) as [[| |]|]; try discriminate; reflexivity.
Qed.

End TableFacts.

Module BandFacts.
Import TableFacts.

Lemma bands_cover_in_band (age : F.float) (hi : F.float) :
  ∀ rules lo,
    bands_cover lo hi rules = true →
    F.leb lo age = true → F.ltb age hi = true →
    ∃ r, r ∈ rules ∧ in_band age r = true.
Proof.
  induction rules as [|r rules IH]; intros lo Hc Hlo Hhi; simpl in Hc.
  - rewrite (FFacts.leb_not_ltb hi age) in Hhi; [discriminate|].
    now apply FFacts.leb_trans with lo.
  - apply andb_prop in Hc as [Hc Hrest]. apply andb_prop in Hc as [Hmin Hmax].
    destruct (F.ltb age (age_max r)) eqn:E.
    + exists r. split; [now left|]. unfold in_band. rewrite E.
      now rewrite (FFacts.leb_trans _ _ _ Hmin Hlo).
    + destruct (IH (age_max r) Hrest) as (r' & Hin & Hband); [|exact Hhi|].
      * apply ltb_false_leb; [|exact Hmax | exact E].
        now apply leb_refl_r with lo.
      * exists r'. split; [now right | exact Hband].
Qed.

Lemma bands_apart (age : F.float) (r r' : DoseRule) :
  F.leb (age_max r) (age_min r') = true →
  in_band age r = true → in_band age r' = true → False.
Proof.
  unfold in_band. intros H Hr Hr'.
  apply andb_prop in Hr as [_ Hr]. apply andb_prop in Hr' as [Hr' _].
  rewrite (FFacts.leb_not_ltb (age_max r) age) in Hr; [discriminate|].
  now apply FFacts.leb_trans with (age_min r').
Qed.

Lemma bands_sorted_unique (age : F.float) :
  ∀ rules r1 r2,
    bands_sorted rules = true →
    r1 ∈ rules → r2 ∈ rules →
    in_band age r1 = true → in_band age r2 = true → r1 = r2.
Proof.
  induction rules as [|r rules IH]; intros r1 r2 Hs H1 H2 Hb1 Hb2.
  - inversion H1.
  - simpl in Hs. apply andb_prop in Hs as [Hhead Hs].
    rewrite forallb_forall in Hhead.
    apply elem_of_cons in H1 as [->|H1], H2 as [->|H2].
    + reflexivity.
    + exfalso. apply (bands_apart age r r2); auto.
      apply Hhead. now apply list_elem_of_In.
    + exfalso. apply (bands_apart age r r1); auto.
      apply Hhead. now apply list_elem_of_In.
    + now apply IH.
Qed.

Lemma bands_within_none (age lo hi : F.float) (rules : list DoseRule) :
  bands_within lo hi rules = true →
  F.ltb age lo = true ∨ F.leb hi age = true →
  ∀ r, r ∈ rules → in_band age r = false.
Proof.
  unfold bands_within. rewrite forallb_forall. intros H Hage r Hr.
  apply list_elem_of_In in Hr. specialize (H r Hr).
  apply andb_prop in H as [Hmin Hmax]. unfold in_band.
  destruct Hage as [Hage|Hage].
  - destruct (F.leb (age_min r) age) eqn:E; [|reflexivity].
    rewrite (FFacts.leb_not_ltb lo age) in Hage; [discriminate|].
    now apply FFacts.leb_trans with (age_min r).
  - rewrite (FFacts.leb_not_ltb (age_max r) age); [apply andb_false_r|].
    now apply FFacts.leb_trans with hi.
Qed.

(** The bands of every drug of the table are in order, cover the ages
    from 12 to 200 and lie between 0 and 200, and its key is in lower
    case. *)
Lemma table_bands :
  forallb
    (fun kv =>
       bands_sorted (snd kv)
       && bands_cover (F.of_Z 12) (F.of_Z 200) (snd kv)
       && bands_within (F.of_Z 0) (F.of_Z 200) (snd kv)
       && String.eqb (Str.lower (fst kv)) (fst kv))
    medications_items = true.
Proof. vm_compute. reflexivity. Qed.

Lemma table_bands_rule (k : string) (rules : list DoseRule) :
  medications !! k = Some rules →
  bands_sorted rules = true
  ∧ bands_cover (F.of_Z 12) (F.of_Z 200) rules = true
  ∧ bands_within (F.of_Z 0) (F.of_Z 200) rules = true
  ∧ Str.lower k = k.
Proof.
  intros Hk. unfold medications in Hk.
  apply elem_of_list_to_map_2, list_elem_of_In in Hk.
  pose proof table_bands as H. rewrite forallb_forall in H.
  specialize (H _ Hk). cbn [fst snd] in H.
  apply andb_prop in H as [H H4]. apply andb_prop in H as [H H3].
  apply andb_prop in H as [H1 H2].
  apply String.eqb_eq in H4. auto.
Qed.

(** What a reply of the recommender holds. *)
Lemma recommendation_fields (name : string) (age : F.float)
    (w : option F.float) (rec : DosageRecommendation) :
  recommend_dose name age w = Ok (Recommendation rec) →
  drug rec = name ∧ age_years rec = age
  ∧ weight_kg rec = match w with
                    | None => estimate_weight_by_age age
                    | Some x => x
                    end
  ∧ ∃ rules r, medications !! Str.lower name = Some rules
               ∧ first_rule age rules = Some r
               ∧ calculate_dose (dose r) (weight_kg rec) age = Ok (dosage rec)
               ∧ adjust_max_for_age_weight (default "" (max r)) age
                   (weight_kg rec) = Ok (max_per_day rec).
Proof.
  unfold recommend_dose.
  destruct (medications !! Str.lower name) as [rules|] eqn:Hk; [|discriminate].
  destruct rules as [|r0 rules]; [discriminate|].
  destruct (first_rule age (r0 :: rules)) as [r|] eqn:Hr; [|discriminate].
  set (weight := match w with None => _ | Some x => x end).
  destruct (calculate_dose (dose r) weight age) as [d|e] eqn:Hd;
    [|discriminate]. cbn [bind].
  destruct (adjust_max_for_age_weight _ age weight) as [m|e] eqn:Hm;
    [|discriminate]. cbn [bind].
  intros [= <-]. cbn. repeat split. exists (r0 :: rules), r. auto.
Qed.

End BandFacts.

(** X5.  In the rules of every drug of the table at most one band holds
    a given age; so the rule at which the loop of the recommender stops
    is the only rule of the drug whose band holds the age, whatever the
    order of the rules. *)
Theorem one_rule_per_age :
  ∀ name rules age,
    medications !! name = Some rules →
    (∀ r1 r2, r1 ∈ rules → r2 ∈ rules →
       in_band age r1 = true → in_band age r2 = true → r1 = r2)
    ∧ (∀ r, first_rule age rules = Some r
            ↔ r ∈ rules ∧ in_band age r = true).
Proof.
  intros name rules age Hk.
  destruct (BandFacts.table_bands_rule name rules Hk) as (Hs & _).
  split.
  - intros r1 r2. now apply BandFacts.bands_sorted_unique.
  - intros r. split; [apply RecommendFacts.first_rule_Some|].
    intros [Hin Hband].
    destruct (first_rule age rules) as [r'|] eqn:E.
    + apply RecommendFacts.first_rule_Some in E as [Hin' Hband'].
      f_equal. now apply (BandFacts.bands_sorted_unique age rules).
    + rewrite RecommendFacts.first_rule_None in E.
      rewrite (E r Hin) in Hband. discriminate.
Qed.

Lemma one_rule_per_age_witness :
  let rules :=
    [ rule (F.of_Z 10) (F.of_Z 18) "500 mg twice daily" "2 g/day";
      rule (F.of_Z 18) (F.of_Z 200) "500–1000 mg twice daily" "2.5 g/day" ] in
  (∀ r1 r2, r1 ∈ rules → r2 ∈ rules →
     in_band (F.of_Z 18) r1 = true → in_band (F.of_Z 18) r2 = true → r1 = r2)
  ∧ (∀ r, first_rule (F.of_Z 18) rules = Some r
          ↔ r ∈ rules ∧ in_band (F.of_Z 18) r = true).
Proof.
  apply (one_rule_per_age "metformin"). reflexivity.
Defined.

(** X6.  For every name whose lower-case form is a drug of the table:
    from 12 years and below 200 years the recommender returns a
    recommendation, and below 0 years or from 200 years it returns the
    error that no dosing rule is available for the age. *)
Theorem table_age_coverage :
  ∀ name rules age w,
    medications !! Str.lower name = Some rules →
    (F.leb (F.of_Z 12) age = true → F.ltb age (F.of_Z 200) = true →
     ∃ rec, recommend_dose name age w = Ok (Recommendation rec))
    ∧ (F.ltb age (F.of_Z 0) = true ∨ F.leb (F.of_Z 200) age = true →
       recommend_dose name age w = Ok (Error (NoDosingRule name age))).
Proof.
  intros name rules age w Hk.
  destruct (BandFacts.table_bands_rule _ rules Hk) as (_ & Hc & Hw & _).
  split.
  - intros Hlo Hhi.
    destruct (BandFacts.bands_cover_in_band age _ rules _ Hc Hlo Hhi)
      as (r & Hin & Hband).
    destruct (first_rule age rules) as [r'|] eqn:Hr.
    + destruct (RecommendFacts.recommend_with_rule name age w _ _ Hk Hr)
        as (d & m & ->). eauto.
    + rewrite RecommendFacts.first_rule_None in Hr.
      rewrite (Hr r Hin) in Hband. discriminate.
  - intros Hage. apply RecommendFacts.recommend_no_rule with rules; [exact Hk|].
    apply RecommendFacts.first_rule_None.
    now apply BandFacts.bands_within_none with (F.of_Z 0) (F.of_Z 200).
Qed.

Lemma table_age_coverage_witness :
  (∃ rec, recommend_dose "Lisinopril" (F.of_Z 17) None
          = Ok (Recommendation rec))
  ∧ recommend_dose "Lisinopril" (F.of_Z 200) None
    = Ok (Error (NoDosingRule "Lisinopril" (F.of_Z 200))).
Proof.
  split.
  - apply (proj1 (table_age_coverage "Lisinopril"
                    [ rule (F.of_Z 6) (F.of_Z 16) "0.07 mg/kg once daily"
                        "5 mg/day";
                      rule (F.of_Z 16) (F.of_Z 200) "5–40 mg once daily"
                        "40 mg/day" ] (F.of_Z 17) None eq_refl));
      reflexivity.
  - apply (proj2 (table_age_coverage "Lisinopril"
                    [ rule (F.of_Z 6) (F.of_Z 16) "0.07 mg/kg once daily"
                        "5 mg/day";
                      rule (F.of_Z 16) (F.of_Z 200) "5–40 mg once daily"
                        "40 mg/day" ] (F.of_Z 200) None eq_refl)).
    right. reflexivity.
Defined.

(** X7.  The dosage tab passes the entered weight on when it is above 0
    and no weight otherwise; so the weight of every recommendation that
    the tab shows is the entered weight when that is above 0 and else
    the weight estimated from the age, and it is above 0 in both
    cases. *)
Theorem dosage_tab_weight :
  ∀ selected_drug age weight rec,
    dosage_tab_recommend selected_drug age weight = Ok (Recommendation rec) →
    weight_kg rec = (if F.ltb (F.of_Z 0) weight then weight
                     else estimate_weight_by_age age)
    ∧ F.ltb (F.of_Z 0) (weight_kg rec) = true.
Proof.
  intros name age weight rec H. unfold dosage_tab_recommend in H.
  apply BandFacts.recommendation_fields in H as (_ & _ & Hw & _).
  rewrite Hw. unfold entered_weight.
  destruct (F.ltb (F.of_Z 0) weight) eqn:E; [auto|].
  split; [reflexivity|]. unfold estimate_weight_by_age.
  repeat match goal with
         | |- context [if ?b then _ else _] => destruct b
         end; reflexivity.
Qed.

Lemma dosage_tab_weight_witness :
  weight_kg
    (MkRecommendation "paracetamol" (F.of_Z 8) (F.of_ratio 350 10)
       "525.0 mg every 6h" "45 mg/day (adjusted)")
  = (if F.ltb (F.of_Z 0) (F.of_Z 0) then F.of_Z 0
     else estimate_weight_by_age (F.of_Z 8))
  ∧ F.ltb (F.of_Z 0)
      (weight_kg
         (MkRecommendation "paracetamol" (F.of_Z 8) (F.of_ratio 350 10)
            "525.0 mg every 6h" "45 mg/day (adjusted)")) = true.
Proof.
  apply (dosage_tab_weight "paracetamol" (F.of_Z 8) (F.of_Z 0)).
  vm_compute. reflexivity.
Defined.

(** X8.  Every option of the drug chooser of the dosage tab, a key of
    the table, is found by the recommender: the tab never answers that
    there is no dosage data for it, and from 12 years and below 200
    years it answers with a recommendation, whatever weight is
    entered. *)
Theorem dosage_tab_option_found :
  ∀ selected_drug rules age weight,
    medications !! selected_drug = Some rules →
    dosage_tab_recommend selected_drug age weight
    ≠ Ok (Error (NoDosageData selected_drug))
    ∧ (F.leb (F.of_Z 12) age = true → F.ltb age (F.of_Z 200) = true →
       ∃ rec, dosage_tab_recommend selected_drug age weight
              = Ok (Recommendation rec)).
Proof.
  intros k rules age weight Hk.
  destruct (BandFacts.table_bands_rule k rules Hk) as (_ & Hc & _ & Hlow).
  assert (medications !! Str.lower k = Some rules) as Hk'
    by now rewrite Hlow.
  unfold dosage_tab_recommend. split.
  - destruct (first_rule age rules) as [r|] eqn:Hr.
    + destruct (RecommendFacts.recommend_with_rule k age
                  (entered_weight weight) _ _ Hk' Hr) as (d & m & ->).
      discriminate.
    + rewrite (RecommendFacts.recommend_no_rule k age _ _ Hk' Hr).
      discriminate.
  - intros Hlo Hhi.
    destruct (BandFacts.bands_cover_in_band age _ rules _ Hc Hlo Hhi)
      as (r & Hin & Hband).
    destruct (first_rule age rules) as [r'|] eqn:Hr.
    + destruct (RecommendFacts.recommend_with_rule k age
                  (entered_weight weight) _ _ Hk' Hr) as (d & m & ->).
      eauto.
    + rewrite RecommendFacts.first_rule_None in Hr.
      rewrite (Hr r Hin) in Hband. discriminate.
Qed.

Lemma dosage_tab_option_found_witness :
  dosage_tab_recommend "aspirin" (F.of_Z 30) (F.of_Z 0)
  ≠ Ok (Error (NoDosageData "aspirin"))
  ∧ ∃ rec, dosage_tab_recommend "aspirin" (F.of_Z 30) (F.of_Z 0)
           = Ok (Recommendation rec).
Proof.
  destruct (dosage_tab_option_found "aspirin"
              [ rule (F.of_Z 12) (F.of_Z 200) "75–325 mg once daily"
                  "4 g/day" ] (F.of_Z 30) (F.of_Z 0) eq_refl) as [H1 H2].
  split; [exact H1|]. apply H2; reflexivity.
Defined.

Module EstimateFacts.
Import TableFacts.

(** Below a bound there is all that is below something below it. *)
Lemma ltb_mono (a b c : F.float) :
  F.leb a b = true → F.leb c c = true →
  F.ltb b c = true → F.ltb a c = true.
Proof.
  intros Hab Hc Hb. destruct (F.ltb a c) eqn:E; [reflexivity|].
  rewrite (FFacts.leb_not_ltb c b) in Hb; [discriminate|].
  apply FFacts.leb_trans with a; [|exact Hab].
  apply ltb_false_leb; [now apply leb_refl_l with b | exact Hc | exact E].
Qed.

End EstimateFacts.

(** X9.  The estimated weight does not decrease with the age: of two
    ages, the higher one (or an equal one) gets an estimate that is at
    least the estimate of the lower one. *)
Theorem estimate_weight_monotone :
  ∀ a b,
    F.leb a b = true →
    F.leb (estimate_weight_by_age a) (estimate_weight_by_age b) = true.
Proof.
  intros a b Hab. unfold estimate_weight_by_age.
  destruct (F.ltb a (F.of_ratio 1 10)) eqn:A1,
           (F.ltb a (F.of_Z 1)) eqn:A2,
           (F.ltb a (F.of_Z 5)) eqn:A3,
           (F.ltb a (F.of_Z 12)) eqn:A4,
           (F.ltb b (F.of_ratio 1 10)) eqn:B1,
           (F.ltb b (F.of_Z 1)) eqn:B2,
           (F.ltb b (F.of_Z 5)) eqn:B3,
           (F.ltb b (F.of_Z 12)) eqn:B4;
    try (vm_compute; reflexivity);
    match goal with
    | Hb : F.ltb b ?c = true, Ha : F.ltb a ?c = false |- _ =>
        rewrite (EstimateFacts.ltb_mono a b c Hab eq_refl Hb) in Ha;
        discriminate
    end.
Qed.

Lemma estimate_weight_monotone_witness :
  F.leb (estimate_weight_by_age (F.of_ratio 5 10))
    (estimate_weight_by_age (F.of_Z 7)) = true.
Proof.
  apply estimate_weight_monotone. vm_compute. reflexivity.
Defined.

(** ** More on the local interaction matcher *)

Section MatcherMore.

Variable token_sort_ratio : string → string → Q.
Variable iter_set : gset string → list string.

(** A name matched at a threshold is matched, to the same entry, at
    every lower one. *)
Lemma resolve_mono (db : list string) (thr thr' : Z) (d c : string) :
  thr <= thr' →
  resolve token_sort_ratio db thr' d = Some c →
  resolve token_sort_ratio db thr d = Some c.
Proof.
  unfold resolve. intros Hle.
  destruct (extractOne token_sort_ratio (Str.lower d) db) as [[c0 sc]|];
    [|discriminate].
  destruct (Qle_bool (inject_Z thr') sc) eqn:E; [|discriminate].
  intros [= <-]. apply Qle_bool_iff in E.
  assert (Qle_bool (inject_Z thr) sc = true) as ->; [|reflexivity].
  apply Qle_bool_iff. apply Qle_trans with (inject_Z thr'); [|exact E].
  now rewrite <- Zle_Qle.
Qed.

Lemma pair_hits_mono (r r' : string → option string)
    (records : list InteractionRecord) (ab : string * string) :
  (∀ d c, r' d = Some c → r d = Some c) →
  pair_hits r' records ab `sublist_of` pair_hits r records ab.
Proof.
  intros H. unfold pair_hits.
  destruct (r' (fst ab)) as [ma|] eqn:Ea; [|apply sublist_nil_l].
  destruct (r' (snd ab)) as [mb|] eqn:Eb; [|apply sublist_nil_l].
  now rewrite (H _ _ Ea), (H _ _ Eb).
Qed.

Lemma flat_map_sublist {A B : Type} (f g : A → list B) (l : list A) :
  (∀ x, f x `sublist_of` g x) → flat_map f l `sublist_of` flat_map g l.
Proof.
  intros H. induction l as [|x l IHl]; simpl; [constructor|].
  now apply sublist_app.
Qed.

Lemma length_pair_hits (r : string → option string)
    (records : list InteractionRecord) (ab : string * string) :
  (length (pair_hits r records ab) <= length records)%nat.
Proof.
  unfold pair_hits. destruct (r (fst ab)); [|simpl; lia].
  destruct (r (snd ab)); [|simpl; lia].
  rewrite length_map. apply length_filter.
Qed.

Lemma length_flat_map_le {A B : Type} (f : A → list B) (n : nat)
    (l : list A) :
  (∀ x, (length (f x) <= n)%nat) →
  (length (flat_map f l) <= length l * n)%nat.
Proof.
  intros H. induction l as [|x l IHl]; simpl; [lia|].
  rewrite length_app. specialize (H x). lia.
Qed.

Lemma record_matches_sym (ma mb : string) (rec : InteractionRecord) :
  record_matches ma mb rec = record_matches mb ma rec.
Proof. unfold record_matches. apply orb_comm. Qed.

(** A matched pair of a pair of names is made from a record of the table
    that names the two matched drugs. *)
Lemma elem_of_pair_hits_record (r : string → option string)
    (records : list InteractionRecord) (ab : string * string)
    (p : MatchedPair) :
  p ∈ pair_hits r records ab →
  ∃ rec, rec ∈ records
         ∧ record_matches (mp_matched_a p) (mp_matched_b p) rec = true
         ∧ p = matched_pair (fst ab) (snd ab) (mp_matched_a p)
                 (mp_matched_b p) rec.
Proof.
  unfold pair_hits.
  destruct (r (fst ab)) as [ma|]; [|intros H; inversion H].
  destruct (r (snd ab)) as [mb|]; [|intros H; inversion H].
  rewrite list_elem_of_fmap. intros (rec & -> & Hrec).
  apply list_elem_of_filter in Hrec as [Hm Hin].
  exists rec. cbn. auto.
Qed.

End MatcherMore.

(** X11.  For names and drug cells of ASCII characters and en dashes,
    every matched pair that the matcher returns is backed by the table:
    it is made from a record whose two lower-cased drug columns
    are the two matched names, in either order, with the severity and
    the description of that record and its source ("local" for none),
    and its two drugs are a pair of the input names, in their order.
    For any names and cells, there are at most as many matched pairs
    as pairs of names times records, and none for fewer than two
    names. *)
Theorem matched_pairs_backed_by_records :
  ∀ (token_sort_ratio : string → string → Q)
    (iter_set : gset string → list string)
    (names : list string) (records : list InteractionRecord) (thr : Z),
    (Forall (fun d => plain d = true) names →
     Forall (fun r => plain_record r = true) records →
     ∀ p, p ∈ find_ddi_local token_sort_ratio iter_set names records thr →
       (mp_drug_a p, mp_drug_b p) ∈ combinations2 names
       ∧ ∃ rec, rec ∈ records
           ∧ ((cell_lower (r_drug_a rec) = mp_matched_a p
               ∧ cell_lower (r_drug_b rec) = mp_matched_b p)
              ∨ (cell_lower (r_drug_a rec) = mp_matched_b p
                 ∧ cell_lower (r_drug_b rec) = mp_matched_a p))
           ∧ mp_severity p = r_severity rec
           ∧ mp_description p = r_description rec
           ∧ mp_source p = default "local" (r_source rec))
    ∧ (length (find_ddi_local token_sort_ratio iter_set names records thr)
       <= length (combinations2 names) * length records)%nat
    ∧ ((length names < 2)%nat →
       find_ddi_local token_sort_ratio iter_set names records thr = []).
Proof.
  intros score iter_set names records thr.
  rewrite find_ddi_local_pairs. split; [|split].
  - intros _ _ p Hp.
    apply list_elem_of_In, in_flat_map in Hp as ([a b] & Hab & Hp).
    apply list_elem_of_In in Hab, Hp.
    destruct (elem_of_pair_hits _ _ _ _ Hp) as (Ha & Hb & _).
    cbn [fst snd] in Ha, Hb. rewrite Ha, Hb. split; [exact Hab|].
    apply elem_of_pair_hits_record in Hp as (rec & Hin & Hm & Hp).
    exists rec. split; [exact Hin|]. split.
    + unfold record_matches in Hm.
      apply orb_prop in Hm as [Hm|Hm]; apply andb_prop in Hm as [H1 H2];
        apply String.eqb_eq in H1, H2; auto.
    + rewrite Hp at 1 2 3. cbn. auto.
  - apply length_flat_map_le. intros ab. apply length_pair_hits.
  - intros Hn. destruct names as [|a [|b names]]; simpl in Hn |- *;
      [reflexivity | reflexivity | lia].
Qed.

(** X12.  Raising the threshold only removes matched pairs: the result
    at a threshold is a sublist (the same pairs in the same order, some
    left out) of the result at every lower threshold. *)
Theorem higher_threshold_fewer_pairs :
  ∀ (token_sort_ratio : string → string → Q)
    (iter_set : gset string → list string)
    (names : list string) (records : list InteractionRecord) (thr thr' : Z),
    thr <= thr' →
    find_ddi_local token_sort_ratio iter_set names records thr'
    `sublist_of` find_ddi_local token_sort_ratio iter_set names records thr.
Proof.
  intros score iter_set names records thr thr' Hle.
  rewrite !find_ddi_local_pairs. apply flat_map_sublist. intros ab.
  apply pair_hits_mono. intros d c. now apply resolve_mono.
Qed.

Lemma higher_threshold_fewer_pairs_witness :
  find_ddi_local exact_score elements ["Warfarin"; "aspirin"]
    [MkRecord (Some "Aspirin") (Some "warfarin") (Some "High")
       (Some "bleeding") None] 100
  `sublist_of`
  find_ddi_local exact_score elements ["Warfarin"; "aspirin"]
    [MkRecord (Some "Aspirin") (Some "warfarin") (Some "High")
       (Some "bleeding") None] 85.
Proof.
  apply higher_threshold_fewer_pairs. lia.
Defined.

(** X13.  The order in which two drugs are given does not matter: for
    the names in the other order the matcher returns the same matched
    pairs, from the same records in the same order, with the two sides
    of each pair exchanged. *)
Theorem two_names_either_order :
  ∀ (token_sort_ratio : string → string → Q)
    (iter_set : gset string → list string)
    (a b : string) (records : list InteractionRecord) (thr : Z),
    find_ddi_local token_sort_ratio iter_set [b; a] records thr
    = map flip_pair
        (find_ddi_local token_sort_ratio iter_set [a; b] records thr).
Proof.
  intros score iter_set a b records thr.
  rewrite !find_ddi_local_pairs. simpl. rewrite !app_nil_r.
  unfold pair_hits. cbn [fst snd].
  destruct (resolve score (db_list iter_set records) thr a) as [ma|],
           (resolve score (db_list iter_set records) thr b) as [mb|];
    try reflexivity.
  rewrite map_map. cbn.
  induction records as [|rec records IH]; [reflexivity|].
  destruct (record_matches ma mb rec) eqn:E.
  - rewrite (filter_cons_True _ rec records)
      by (now rewrite record_matches_sym).
    rewrite (filter_cons_True _ rec records) by exact E.
    simpl. now rewrite IH.
  - rewrite (filter_cons_False _ rec records)
      by (rewrite record_matches_sym, E; discriminate).
    rewrite (filter_cons_False _ rec records)
      by (rewrite E; discriminate).
    exact IH.
Qed.

(** ** Dose texts that begin with the dose *)

Module StartFacts.
Import StrFacts PatFacts.

Lemma all_impl (p q : ascii → bool) (s : string) :
  (∀ c, p c = true → q c = true) → Str.all p s = true → Str.all q s = true.
Proof.
  intros H. induction s as [|c s IH]; [reflexivity|]. simpl.
  intros Hs. apply andb_prop in Hs as [Hc Hs].
  now rewrite (H c Hc), IH.
Qed.

Lemma digit_no_unit (c : ascii) :
  Str.is_digit c = true → negb (unit_initial c) = true.
Proof.
  destruct c as [[] [] [] [] [] [] [] []]; vm_compute; auto.
Qed.

Lemma space_no_unit (c : ascii) :
  Str.is_space c = true → negb (unit_initial c) = true.
Proof.
  destruct c as [[] [] [] [] [] [] [] []]; vm_compute; auto.
Qed.

Lemma digits_free (w : string) :
  F.nonempty_digits w = true → free_of unit_initial w = true.
Proof.
  intros H. destruct (nonempty_digits_inv w H) as [_ Hd].
  revert Hd. apply all_impl, digit_no_unit.
Qed.

Lemma number_free (w : string) (v : F.float) :
  F.of_string w = Ok v → free_of unit_initial w = true.
Proof.
  intros H. destruct (of_string_inv w v H) as (ip & fp & -> & Hip & Hfp).
  unfold free_of. rewrite all_app. fold (free_of unit_initial ip).
  rewrite (digits_free ip Hip). destruct fp as [f|]; [|reflexivity].
  unfold frac_text. rewrite all_app. fold (free_of unit_initial f).
  now rewrite (digits_free f (Hfp f eq_refl)).
Qed.

Lemma unit_starts (u : string) :
  is_unit u → u ≠ "" ∧ Str.starts (fun c => negb (unit_initial c)) u = false.
Proof. intros [-> | [-> | ->]]; split; (discriminate || reflexivity). Qed.

(** A text that starts with a letter of no character of [x] does not
    occur in [x +:+ y] before the end of [x]. *)
Lemma not_before_prefix (p : ascii → bool) (u : string) :
  u ≠ "" → Str.starts p u = false →
  ∀ x y, Str.all p x = true → not_before u (x +:+ y) (String.length x).
Proof.
  intros Hne Hu. induction x as [|c x IH]; intros y Hx a b Heq.
  - simpl. lia.
  - simpl in Hx. apply andb_prop in Hx as [Hc Hx].
    destruct a as [|c' a].
    + rewrite app_nil_l in Heq. destruct u as [|cu u]; [contradiction|].
      rewrite !app_cons in Heq. injection Heq as -> _.
      simpl in Hu. congruence.
    + rewrite !app_cons in Heq. injection Heq as _ Heq.
      specialize (IH y Hx a b Heq). simpl. lia.
Qed.

(** The head of a dose text: the bounds and the white space. *)
Lemma head_free (lo : string) (hi : option string) (ws : string) :
  free_of unit_initial lo = true →
  (∀ h, hi = Some h → free_of unit_initial h = true) →
  Str.all Str.is_space ws = true →
  free_of unit_initial (lo +:+ range_text hi +:+ ws) = true.
Proof.
  intros Hlo Hhi Hws. unfold free_of in *. rewrite !all_app, Hlo.
  rewrite (all_impl _ _ ws space_no_unit Hws), andb_true_r.
  destruct hi as [h|]; [|reflexivity]. unfold range_text.
  rewrite all_app, (Hhi h eq_refl). reflexivity.
Qed.

End StartFacts.

Module StartDose.

(** A per-kilogram dose at the start of the text. *)
Lemma per_kg_at_start (lo : string) (hi : option string)
    (ws u rest : string) (weight age vlo vhi : F.float) :
  F.of_string lo = Ok vlo →
  match hi with
  | Some h => F.of_string h = Ok vhi
  | None => vhi = vlo
  end →
  Str.all Str.is_space ws = true → is_unit u →
  calculate_dose (lo +:+ range_text hi +:+ ws +:+ u +:+ "/kg" +:+ rest)
    weight age
  = Ok (per_kg_text vlo vhi u weight +:+ rest).
Proof.
  intros Hlo Hhi Hws Hu.
  pose proof (DoseFacts.per_kg_first "" lo hi ws u rest weight age vlo vhi
                Hlo Hhi Hws Hu (AdjustFacts.first_at_nil _ _)) as H.
  rewrite !StrFacts.app_nil_l in H. apply H.
  destruct (StartFacts.unit_starts u Hu) as [Hne Hst].
  replace (lo +:+ range_text hi +:+ ws +:+ u +:+ "/kg" +:+ rest)
    with ((lo +:+ range_text hi +:+ ws) +:+ ((u +:+ "/kg") +:+ rest))
    by (now rewrite !StrFacts.app_assoc).
  apply (StartFacts.not_before_prefix (fun c => negb (unit_initial c))).
  - destruct u; [contradiction | discriminate].
  - destruct u; [contradiction | exact Hst].
  - apply StartFacts.head_free;
      [now apply StartFacts.number_free with vlo | | exact Hws].
    intros h ->. now apply StartFacts.number_free with vhi.
Qed.

(** An absolute dose at the start of a text with no per-kilogram dose. *)
Lemma range_at_start (lo : string) (hi : option string)
    (ws u rest : string) (weight age : F.float) (vlo vhi : Z) :
  int_of_string lo = Ok vlo →
  match hi with
  | Some h => int_of_string h = Ok vhi
  | None => vhi = vlo
  end →
  Str.all Str.is_space ws = true → is_unit u →
  ¬ Re.occurs per_kg_re (lo +:+ range_text hi +:+ ws +:+ u +:+ rest) →
  calculate_dose (lo +:+ range_text hi +:+ ws +:+ u +:+ rest) weight age
  = Ok (Str.of_Z (chosen_dose vlo vhi age) +:+ " " +:+ u +:+ rest).
Proof.
  intros Hlo Hhi Hws Hu Hno.
  pose proof (EngineFacts.range_first "" lo hi ws u rest weight age
                vlo vhi Hlo Hhi Hws Hu) as H.
  rewrite !StrFacts.app_nil_l in H.
  apply H; [exact Hno | apply AdjustFacts.first_at_nil |].
  destruct (StartFacts.unit_starts u Hu) as [Hne Hst].
  replace (lo +:+ range_text hi +:+ ws +:+ u +:+ rest)
    with ((lo +:+ range_text hi +:+ ws) +:+ (u +:+ rest))
    by (now rewrite !StrFacts.app_assoc).
  apply (StartFacts.not_before_prefix (fun c => negb (unit_initial c)));
    [exact Hne | exact Hst |].
  apply StartFacts.head_free;
    [apply StartFacts.digits_free;
     now destruct (RangeFacts.int_of_string_inv lo vlo Hlo) | | exact Hws].
  intros h ->. apply StartFacts.digits_free.
  now destruct (RangeFacts.int_of_string_inv h vhi Hhi).
Qed.

End StartDose.

(** X14.  On a dose text of ASCII characters and en dashes that begins
    with the dose, as those of the table do, the calculator returns the
    new dose followed by exactly the text after the unit (after the unit
    and "/kg" for a per-kilogram dose): the scaled dose for a
    per-kilogram dose, and the chosen dose and the unit for an absolute
    dose in a text of at most 4300 characters with no per-kilogram
    dose. *)
Theorem dose_at_start_of_text :
  (∀ lo hi ws u rest weight age vlo vhi,
     plain (lo +:+ range_text hi +:+ ws +:+ u +:+ "/kg" +:+ rest) = true →
     F.of_string lo = Ok vlo →
     match hi with
     | Some h => F.of_string h = Ok vhi
     | None => vhi = vlo
     end →
     Str.all Str.is_space ws = true → is_unit u →
     calculate_dose (lo +:+ range_text hi +:+ ws +:+ u +:+ "/kg" +:+ rest)
       weight age
     = Ok (per_kg_text vlo vhi u weight +:+ rest))
  ∧ (∀ lo hi ws u rest weight age vlo vhi,
       plain (lo +:+ range_text hi +:+ ws +:+ u +:+ rest) = true →
       (String.length (lo +:+ range_text hi +:+ ws +:+ u +:+ rest)
        <= 4300)%nat →
       int_of_string lo = Ok vlo →
       match hi with
       | Some h => int_of_string h = Ok vhi
       | None => vhi = vlo
       end →
       Str.all Str.is_space ws = true → is_unit u →
       ¬ Re.occurs per_kg_re (lo +:+ range_text hi +:+ ws +:+ u +:+ rest) →
       calculate_dose (lo +:+ range_text hi +:+ ws +:+ u +:+ rest) weight age
       = Ok (Str.of_Z (chosen_dose vlo vhi age) +:+ " " +:+ u +:+ rest)).
Proof.
  split.
  - intros lo hi ws u rest weight age vlo vhi _.
    apply StartDose.per_kg_at_start.
  - intros lo hi ws u rest weight age vlo vhi _ _.
    apply StartDose.range_at_start.
Qed.

Lemma dose_at_start_of_text_witness :
  calculate_dose
    ("15" +:+ range_text None +:+ " " +:+ "mg" +:+ "/kg" +:+ " every 6h")
    (F.of_Z 20) (F.of_Z 5)
  = Ok (per_kg_text (F.of_Z 15) (F.of_Z 15) "mg" (F.of_Z 20) +:+ " every 6h")
  ∧ calculate_dose
      ("500" +:+ range_text (Some "1000") +:+ " " +:+ "mg" +:+ " every 6h")
      (F.of_Z 70) (F.of_Z 30)
    = Ok (Str.of_Z (chosen_dose 500 1000 (F.of_Z 30)) +:+ " " +:+ "mg"
          +:+ " every 6h").
Proof.
  split.
  - apply (proj1 dose_at_start_of_text).
    + reflexivity.
    + reflexivity.
    + reflexivity.
    + reflexivity.
    + unfold is_unit. auto.
  - apply (proj2 dose_at_start_of_text).
    + reflexivity.
    + vm_compute. lia.
    + reflexivity.
    + reflexivity.
    + reflexivity.
    + unfold is_unit. auto.
    + apply ReFacts.search_None_iff. reflexivity.
Defined.

(** ** The age of 65 years *)

(** X10.  For an age that is a number (no NaN), the age group indicator
    of the dosage tab shows "Elderly" exactly from the age of 65 years,
    and the two functions of the dosage engine change at the same age.
    On a text of ASCII characters and en dashes, at most 4300 characters
    long, that begins with a dose range and has no per-kilogram dose,
    the dose calculator returns the lower bound for a patient shown as
    elderly and the floor of the mean of the bounds for every other
    patient.  On a text of ASCII characters and en dashes that begins
    with a number of milligrams, for a patient of 50 kg or more, the
    maximum adjuster multiplies the number by 0.6 (from 80 years) or by
    0.75 for a patient shown as elderly, and leaves it as it is for every
    other patient. *)
Theorem elderly_from_65 :
  ∀ age,
    F.leb age age = true →
    (age_group_of age = Elderly ↔ F.geb age (F.of_Z 65) = true)
    ∧ (∀ lo hi ws u rest weight vlo vhi,
         plain (lo +:+ range_text (Some hi) +:+ ws +:+ u +:+ rest) = true →
         (String.length (lo +:+ range_text (Some hi) +:+ ws +:+ u +:+ rest)
          <= 4300)%nat →
         int_of_string lo = Ok vlo → int_of_string hi = Ok vhi →
         Str.all Str.is_space ws = true → is_unit u →
         ¬ Re.occurs per_kg_re
             (lo +:+ range_text (Some hi) +:+ ws +:+ u +:+ rest) →
         calculate_dose (lo +:+ range_text (Some hi) +:+ ws +:+ u +:+ rest)
           weight age
         = Ok (Str.of_Z (match age_group_of age with
                         | Elderly => vlo
                         | _ => (vlo + vhi) / 2
                         end) +:+ " " +:+ u +:+ rest))
    ∧ (∀ num ws rest weight v,
         plain (num +:+ ws +:+ "mg" +:+ rest) = true →
         F.of_string num = Ok v →
         Str.all Str.is_space ws = true →
         F.ltb weight (F.of_Z 50) = false →
         adjust_max_for_age_weight (num +:+ ws +:+ "mg" +:+ rest) age weight
         = Ok (let value :=
                 match age_group_of age with
                 | Elderly =>
                     F.mul v (if F.geb age (F.of_Z 80) then F.of_ratio 6 10
                              else F.of_ratio 75 100)
                 | _ => v
                 end in
               if F.geb value (F.of_Z 1000)
               then F.format_fixed 1 (F.div value (F.of_Z 1000))
                    +:+ " g/day (adjusted)"
               else F.format_fixed 0 value +:+ " mg/day (adjusted)")).
Proof.
  intros age Hnum.
  assert (age_group_of age = Elderly ↔ F.geb age (F.of_Z 65) = true) as Hiff.
  { unfold age_group_of. split.
    - destruct (F.ltb age (F.of_Z 1)); [discriminate|].
      destruct (F.ltb age (F.of_Z 12)); [discriminate|].
      destruct (F.ltb age (F.of_Z 18)); [discriminate|].
      destruct (F.ltb age (F.of_Z 65)) eqn:E; [discriminate|]. intros _.
      now apply TableFacts.ltb_false_leb.
    - intros H. change (F.leb (F.of_Z 65) age = true) in H.
      rewrite (FFacts.above_not_below (F.of_Z 1) (F.of_Z 65) age eq_refl H).
      rewrite (FFacts.above_not_below (F.of_Z 12) (F.of_Z 65) age eq_refl H).
      rewrite (FFacts.above_not_below (F.of_Z 18) (F.of_Z 65) age eq_refl H).
      now rewrite (FFacts.leb_not_ltb (F.of_Z 65) age H). }
  split; [exact Hiff|]. split.
  - intros lo hi ws u rest weight vlo vhi _ _ Hlo Hhi Hws Hu Hno.
    rewrite (StartDose.range_at_start lo (Some hi) ws u rest weight age
               vlo vhi Hlo Hhi Hws Hu Hno).
    unfold chosen_dose. destruct (F.geb age (F.of_Z 65)) eqn:E.
    + now rewrite (proj2 Hiff eq_refl).
    + destruct (age_group_of age) eqn:G; try reflexivity.
      discriminate (proj1 Hiff eq_refl).
  - intros num ws rest weight v _ Hv Hws Hw.
    pose proof (AdjustFacts.adjust_first_number "" num ws "mg" rest age
                  weight v Hv Hws (or_introl eq_refl)
                  (AdjustFacts.first_at_nil _ _)) as H.
    rewrite StrFacts.app_nil_l in H. rewrite H.
    unfold adjusted_text, reduce, age_reduction, weight_reduction.
    rewrite Hw. cbn [String.eqb Ascii.eqb Bool.eqb orb andb]. cbv zeta.
    destruct (F.geb age (F.of_Z 65)) eqn:E.
    + rewrite (proj2 Hiff eq_refl).
      now destruct (F.geb age (F.of_Z 80)).
    + destruct (F.geb age (F.of_Z 80)) eqn:E80.
      * change (F.leb (F.of_Z 65) age = false) in E.
        change (F.leb (F.of_Z 80) age = true) in E80.
        rewrite (FFacts.leb_trans (F.of_Z 65) (F.of_Z 80) age eq_refl E80)
          in E.
        discriminate.
      * destruct (age_group_of age) eqn:G; try reflexivity.
        discriminate (proj1 Hiff eq_refl).
Qed.

Lemma elderly_from_65_witness :
  age_group_of (F.of_Z 65) = Elderly
  ∧ calculate_dose
      ("500" +:+ range_text (Some "1000") +:+ " " +:+ "mg" +:+ " every 6h")
      (F.of_Z 70) (F.of_Z 65)
    = Ok "500 mg every 6h"
  ∧ adjust_max_for_age_weight
      ("1200" +:+ " " +:+ "mg" +:+ "/day (OTC)") (F.of_Z 65) (F.of_Z 70)
    = Ok "900 mg/day (adjusted)".
Proof.
  destruct (elderly_from_65 (F.of_Z 65) eq_refl) as (H1 & H2 & H3).
  split; [apply H1; reflexivity|]. split.
  - apply (H2 "500" "1000" " " "mg" " every 6h" (F.of_Z 70) 500 1000).
    + reflexivity.
    + vm_compute. lia.
    + reflexivity.
    + reflexivity.
    + reflexivity.
    + unfold is_unit. auto.
    + apply ReFacts.search_None_iff. reflexivity.
  - apply (H3 "1200" " " "/day (OTC)" (F.of_Z 70) (F.of_Z 1200));
      reflexivity.
Defined.

(** ** The list of drug names of the interaction tab *)

Module ParseFacts.
Import StrFacts.

Lemma lstrip_lstrip (s : string) : lstrip (lstrip s) = lstrip s.
Proof.
  induction s as [|c s IH]; [reflexivity|]. simpl.
  destruct (Str.is_space c) eqn:E; [exact IH|]. simpl. now rewrite E.
Qed.

Lemma rstrip_cons (c : ascii) (s : string) :
  rstrip s ≠ "" → rstrip (String c s) = String c (rstrip s).
Proof. simpl. destruct (rstrip s); [contradiction | reflexivity]. Qed.

Lemma rstrip_cons_nil (c : ascii) (s : string) :
  rstrip s = "" →
  rstrip (String c s) = if Str.is_space c then "" else String c "".
Proof. simpl. now intros ->. Qed.

Lemma rstrip_rstrip (s : string) : rstrip (rstrip s) = rstrip s.
Proof.
  induction s as [|c s IH]; [reflexivity|].
  destruct (rstrip s) as [|c' r] eqn:E.
  - rewrite (rstrip_cons_nil c s E).
    destruct (Str.is_space c) eqn:Ec; [reflexivity|].
    simpl. now rewrite Ec.
  - rewrite (rstrip_cons c s) by (rewrite E; discriminate).
    rewrite E in *. rewrite (rstrip_cons c (String c' r)); [now rewrite IH|].
    rewrite IH. discriminate.
Qed.

Lemma rstrip_lstrip (s : string) : rstrip (lstrip s) = lstrip (rstrip s).
Proof.
  induction s as [|c s IH]; [reflexivity|].
  destruct (Str.is_space c) eqn:Ec.
  - change (lstrip (String c s)) with
      (if Str.is_space c then lstrip s else String c s).
    rewrite Ec, IH.
    destruct (rstrip s) as [|c' r] eqn:E.
    + rewrite (rstrip_cons_nil c s E), Ec. reflexivity.
    + rewrite (rstrip_cons c s) by (rewrite E; discriminate).
      rewrite E. simpl. now rewrite Ec.
  - change (lstrip (String c s)) with
      (if Str.is_space c then lstrip s else String c s).
    rewrite Ec.
    destruct (rstrip s) as [|c' r] eqn:E.
    + rewrite (rstrip_cons_nil c s E), Ec. simpl. now rewrite Ec.
    + rewrite (rstrip_cons c s) by (rewrite E; discriminate).
      rewrite E. simpl. now rewrite Ec.
Qed.

Lemma strip_strip (s : string) : strip (strip s) = strip s.
Proof.
  unfold strip. now rewrite rstrip_lstrip, rstrip_rstrip, lstrip_lstrip.
Qed.

Lemma lstrip_all (p : ascii → bool) (s : string) :
  Str.all p s = true → Str.all p (lstrip s) = true.
Proof.
  induction s as [|c s IH]; [reflexivity|]. simpl.
  intros H. apply andb_prop in H as [Hc Hs].
  destruct (Str.is_space c); [auto|]. simpl. now rewrite Hc, Hs.
Qed.

Lemma rstrip_all (p : ascii → bool) (s : string) :
  Str.all p s = true → Str.all p (rstrip s) = true.
Proof.
  induction s as [|c s IH]; [reflexivity|]. simpl.
  intros H. apply andb_prop in H as [Hc Hs]. specialize (IH Hs).
  destruct (rstrip s) as [|c' r].
  - destruct (Str.is_space c); [reflexivity|]. simpl. now rewrite Hc.
  - simpl in *. now rewrite Hc, IH.
Qed.

Lemma strip_all (p : ascii → bool) (s : string) :
  Str.all p s = true → Str.all p (strip s) = true.
Proof. intros H. unfold strip. now apply lstrip_all, rstrip_all. Qed.

(** A text of white space only is stripped to nothing. *)
Lemma rstrip_spaces (s : string) :
  Str.all Str.is_space s = true → rstrip s = "".
Proof.
  induction s as [|c s IH]; [reflexivity|]. simpl.
  intros H. apply andb_prop in H as [Hc Hs]. now rewrite (IH Hs), Hc.
Qed.

Lemma lstrip_pad (pad y : string) :
  Str.all Str.is_space pad = true → lstrip (pad +:+ y) = lstrip y.
Proof.
  induction pad as [|c pad IH]; [reflexivity|].
  intros H. simpl in H. apply andb_prop in H as [Hc Hs].
  rewrite app_cons. simpl. rewrite Hc. auto.
Qed.

Lemma rstrip_pad (pad x : string) :
  rstrip x ≠ "" → rstrip (pad +:+ x) = pad +:+ rstrip x.
Proof.
  intros Hx. induction pad as [|c pad IH]; [reflexivity|].
  rewrite !app_cons, rstrip_cons; [now rewrite IH|].
  rewrite IH. intros H. apply app_eq_nil in H as [_ H]. contradiction.
Qed.

Lemma strip_pad (pad x : string) :
  Str.all Str.is_space pad = true → x ≠ "" → strip x = x →
  strip (pad +:+ x) = x.
Proof.
  intros Hpad Hne Hx. unfold strip in *.
  assert (rstrip x ≠ "") as Hr.
  { intros E. rewrite E in Hx. simpl in Hx. now subst x. }
  now rewrite (rstrip_pad pad x Hr), (lstrip_pad pad _ Hpad).
Qed.

End ParseFacts.

Module SplitFacts.
Import StrFacts ParseFacts.

Lemma split_on_cons (sep c : ascii) (s : string) :
  Ascii.eqb c sep = false →
  ∃ h t, split_on sep s = h :: t
         ∧ split_on sep (String c s) = String c h :: t.
Proof.
  intros E. simpl. rewrite E.
  destruct s as [|c' s]; [now exists "", []|].
  destruct (split_on sep (String c' s)) as [|h t] eqn:Es.
  - exfalso. simpl in Es. destruct (Ascii.eqb c' sep); [discriminate|].
    destruct (split_on sep s); discriminate.
  - now exists h, t.
Qed.

(** The pieces of a text hold none of its separators, and only
    characters of the text. *)
Lemma split_on_pieces (sep : ascii) (p : ascii → bool) (s : string) :
  Str.all p s = true →
  Forall (fun d => Str.all p d = true
                   ∧ free_of (fun c => Ascii.eqb c sep) d = true)
    (split_on sep s).
Proof.
  induction s as [|c s IH]; intros Hs.
  - repeat constructor.
  - simpl in Hs. apply andb_prop in Hs as [Hc Hs]. specialize (IH Hs).
    destruct (Ascii.eqb c sep) eqn:E.
    + simpl. rewrite E. constructor; [now split | exact IH].
    + destruct (split_on_cons sep c s E) as (h & t & Eh & ->).
      rewrite Eh in IH. apply Forall_cons in IH as [[Hh1 Hh2] Ht].
      constructor; [|exact Ht]. unfold free_of in *. simpl.
      now rewrite Hc, Hh1, E, Hh2.
Qed.

Lemma split_on_single (sep : ascii) (x : string) :
  free_of (fun c => Ascii.eqb c sep) x = true → split_on sep x = [x].
Proof.
  unfold free_of. induction x as [|c x IH]; [reflexivity|].
  simpl. intros H. apply andb_prop in H as [Hc Hx].
  apply negb_true_iff in Hc. rewrite Hc, (IH Hx). reflexivity.
Qed.

Lemma split_on_app (sep : ascii) (x rest : string) :
  free_of (fun c => Ascii.eqb c sep) x = true →
  split_on sep (x +:+ String sep rest) = x :: split_on sep rest.
Proof.
  unfold free_of. induction x as [|c x IH]; intros H.
  - rewrite app_nil_l. simpl. now rewrite Ascii.eqb_refl.
  - simpl in H. apply andb_prop in H as [Hc Hx].
    apply negb_true_iff in Hc. rewrite app_cons.
    change (split_on sep (String c (x +:+ String sep rest)))
      with (if Ascii.eqb c sep
            then "" :: split_on sep (x +:+ String sep rest)
            else match split_on sep (x +:+ String sep rest) with
                 | h :: t => String c h :: t
                 | [] => [String c ""]
                 end).
    now rewrite Hc, (IH Hx).
Qed.

Lemma all_true (s : string) : Str.all (fun _ => true) s = true.
Proof. induction s as [|c s IH]; [reflexivity | exact IH]. Qed.

Lemma space_no_comma (c : ascii) :
  Str.is_space c = true → negb (is_comma c) = true.
Proof.
  destruct c as [[] [] [] [] [] [] [] []]; vm_compute; auto.
Qed.

Lemma strip_spaces (d : string) :
  Str.all Str.is_space d = true → strip d = "".
Proof. intros H. unfold strip. now rewrite (rstrip_spaces d H). Qed.

Lemma blank_piece (d : string) :
  Str.all (fun c => Str.is_space c || is_comma c) d = true →
  free_of is_comma d = true → Str.all Str.is_space d = true.
Proof.
  unfold free_of. induction d as [|c d IH]; [reflexivity|]. simpl.
  intros H1 H2. apply andb_prop in H1 as [Hc1 H1], H2 as [Hc2 H2].
  rewrite (IH H1 H2), andb_true_r.
  apply negb_true_iff in Hc2. rewrite Hc2 in Hc1.
  now rewrite orb_false_r in Hc1.
Qed.

(** The names of [pad], clean names joined by a comma and a space. *)
Lemma parse_join (l : list string) :
  Forall clean_name l → l ≠ [] →
  ∀ pad, Str.all Str.is_space pad = true →
         parse_drug_list (pad +:+ join ", " l) = l.
Proof.
  induction l as [|x l IH]; intros Hl Hne pad Hpad; [contradiction|].
  apply Forall_cons in Hl as [(Hx & Hsx & Hcx) Hl].
  assert (free_of is_comma (pad +:+ x) = true) as Hfree.
  { unfold free_of in *. rewrite all_app, Hcx, andb_true_r.
    revert Hpad. apply StartFacts.all_impl, space_no_comma. }
  assert (strip (pad +:+ x) = x) as Hstrip by now apply strip_pad.
  unfold parse_drug_list in *.
  destruct l as [|y l].
  - cbn [join]. rewrite (split_on_single "," _ Hfree).
    rewrite filter_cons_True by (now rewrite Hstrip).
    cbn. now rewrite Hstrip.
  - change (join ", " (x :: y :: l))
      with (x +:+ String "," (" " +:+ join ", " (y :: l))).
    rewrite <- app_assoc, (split_on_app "," _ _ Hfree).
    rewrite filter_cons_True by (now rewrite Hstrip).
    cbn [map]. rewrite Hstrip. f_equal.
    apply IH; [exact Hl | discriminate | reflexivity].
Qed.

End SplitFacts.

(** X15.  The names that the interaction tab reads from the entered text
    are its pieces between commas with the white space at their ends
    removed, the blank pieces left out: each name is not empty, has no
    white space at its ends and no comma; and a text of white space and
    commas only, the empty one too, gives no name. *)
Theorem parse_drug_list_names :
  ∀ drug_input,
    Forall clean_name (parse_drug_list drug_input)
    ∧ (Str.all (fun c => Str.is_space c || is_comma c) drug_input = true →
       parse_drug_list drug_input = []).
Proof.
  intros s. unfold parse_drug_list. split.
  - apply Forall_forall. intros d Hd.
    apply list_elem_of_fmap in Hd as (d0 & -> & Hd0).
    apply list_elem_of_filter in Hd0 as [Hne Hin].
    split; [exact Hne|]. split; [apply ParseFacts.strip_strip|].
    pose proof (SplitFacts.split_on_pieces "," (fun _ => true) s) as H.
    rewrite Forall_forall in H.
    destruct (H (SplitFacts.all_true s) d0 Hin) as [_ Hfree].
    now apply ParseFacts.strip_all.
  - intros Hblank.
    pose proof (SplitFacts.split_on_pieces "," _ s Hblank) as H.
    induction (split_on "," s) as [|d l IH]; [reflexivity|].
    apply Forall_cons in H as [[Hd1 Hd2] Hl].
    rewrite filter_cons_False; [now apply IH|].
    intros Hne. apply Hne, SplitFacts.strip_spaces.
    now apply SplitFacts.blank_piece.
Qed.

(** X16.  Clean names of ASCII characters and en dashes, joined by a
    comma and a space, are read back as they are, in their order: the
    reading of the interaction tab is a left inverse of the joining. *)
Theorem parse_drug_list_join :
  ∀ names,
    Forall (fun d => plain d = true) names →
    Forall clean_name names →
    parse_drug_list (join ", " names) = names.
Proof.
  intros l _ Hl. destruct l as [|x l]; [reflexivity|].
  rewrite <- (StrFacts.app_nil_l (join ", " (x :: l))).
  apply SplitFacts.parse_join; [exact Hl | discriminate | reflexivity].
Qed.

Lemma parse_drug_list_join_witness :
  parse_drug_list
    (join ", " ["warfarin"; "acetylsalicylic acid"; "St John's wort"])
  = ["warfarin"; "acetylsalicylic acid"; "St John's wort"].
Proof.
  apply parse_drug_list_join.
  - repeat constructor.
  - repeat constructor; try discriminate.
Defined.

(** ** The conversation history *)

Module HistoryFacts.

Lemma add_last_n (l : list Exchange) (now u a : string) :
  add_to_conversation now (last_n 10 l) u a
  = last_n 10 (l ++ [MkExchange now u a]).
Proof.
  unfold add_to_conversation, last_n.
  rewrite !length_app, length_drop. cbn [length].
  destruct (le_lt_dec (length l) 9) as [Hle|Hgt].
  - replace (length l - (length l - 10) + 1)%nat with (length l + 1)%nat
      by lia.
    replace (length l - 10)%nat with 0%nat by lia.
    replace (length l + 1 - 10)%nat with 0%nat by lia.
    rewrite !drop_0. destruct (Nat.ltb_spec 10 (length l + 1)); [lia|].
    reflexivity.
  - replace (length l - (length l - 10) + 1)%nat with 11%nat by lia.
    cbn [Nat.ltb Nat.leb Nat.sub].
    rewrite drop_app_le by (rewrite length_drop; lia).
    rewrite drop_drop, drop_app_le by lia.
    f_equal. f_equal. lia.
Qed.

Lemma conversation_snoc (calls : list Exchange) (c : Exchange) :
  conversation (calls ++ [c])
  = add_to_conversation (ex_timestamp c) (conversation calls) (ex_user c)
      (ex_assistant c).
Proof. unfold conversation. now rewrite fold_left_app. Qed.

End HistoryFacts.

(** X17.  The history of a session is always its last ten exchanges, in
    their order: after any number of exchanges, each added by
    [add_to_conversation] to a history that starts empty, the history
    holds the last ten of them, all of them when there are at most
    ten; the newest exchange is its last entry; and the last five
    entries that the history display shows, like the last two that the
    prompt of the assistant repeats, are the last exchanges of the
    session. *)
Theorem conversation_last_ten :
  ∀ calls,
    conversation calls = last_n 10 calls
    ∧ length (conversation calls) = Nat.min (length calls) 10
    ∧ (∀ c, last (conversation (calls ++ [c])) = Some c)
    ∧ (∀ n, (n <= 10)%nat → last_n n (conversation calls) = last_n n calls).
Proof.
  assert (∀ calls, conversation calls = last_n 10 calls) as H.
  { induction calls as [|c calls IH] using rev_ind; [reflexivity|].
    rewrite HistoryFacts.conversation_snoc, IH, HistoryFacts.add_last_n.
    now destruct c. }
  intros calls. split; [apply H|]. split; [|split].
  - rewrite H. unfold last_n. rewrite length_drop. lia.
  - intros c. rewrite H. unfold last_n.
    rewrite drop_app_le by (rewrite length_app; cbn [length]; lia).
    apply last_snoc.
  - intros n Hn. rewrite H. unfold last_n.
    rewrite length_drop, drop_drop. f_equal. lia.
Qed.

(** ** Names in any case, follow-up questions and alternatives *)

Module NameFacts.

Lemma lower_char_idem (c : ascii) :
  Str.lower_char (Str.lower_char c) = Str.lower_char c.
Proof. destruct c as [[] [] [] [] [] [] [] []]; reflexivity. Qed.

Lemma lower_idem (s : string) : Str.lower (Str.lower s) = Str.lower s.
Proof.
  induction s as [|c s IH]; [reflexivity|].
  simpl. now rewrite lower_char_idem, IH.
Qed.

Lemma lookup_alternatives (k : string) :
  ALTERNATIVE_MAP !! k
  = if decide (k = "warfarin")
    then Some ["dabigatran"; "apixaban"; "rivaroxaban"]
    else if decide (k = "ibuprofen") then Some ["paracetamol"] else None.
Proof.
  unfold ALTERNATIVE_MAP. cbn [list_to_map foldr uncurry].
  destruct (decide (k = "warfarin")) as [->|H1].
  - apply lookup_insert_eq.
  - rewrite lookup_insert_ne by (intros E; symmetry in E; contradiction).
    destruct (decide (k = "ibuprofen")) as [->|H2].
    + apply lookup_insert_eq.
    + rewrite lookup_insert_ne by (intros E; symmetry in E; contradiction). apply lookup_empty.
Qed.

End NameFacts.

(** X18.  The follow-up questions are never a mix: a query with "dosage"
    or "dose" in it, in any case, gets the three questions on a
    medication and nothing else; without them, a query with
    "interaction" gets the three questions on interactions; without
    those too, a query with "child" or "pediatric" gets the three
    questions on children; every other query gets none.  The response
    plays no part. *)
Theorem follow_up_priority :
  ∀ query response,
    suggest_follow_up_questions query response
    = if str_contains "dosage" (Str.lower query)
         || str_contains "dose" (Str.lower query)
      then dosage_follow_ups
      else if str_contains "interaction" (Str.lower query)
      then interaction_follow_ups
      else if str_contains "child" (Str.lower query)
              || str_contains "pediatric" (Str.lower query)
      then child_follow_ups
      else [].
Proof.
  intros query response. unfold suggest_follow_up_questions.
  destruct (str_contains "dosage" (Str.lower query)
            || str_contains "dose" (Str.lower query)),
           (str_contains "interaction" (Str.lower query)),
           (str_contains "child" (Str.lower query)
            || str_contains "pediatric" (Str.lower query));
    reflexivity.
Qed.

(** X19.  The recommender reads the drug name in any case: two names
    with the same lower-case form get the same answer, the name that
    the answer repeats apart; and the lower-case form of a name is its
    own lower-case form, so this holds for a name and its lower-case
    form. *)
Theorem recommend_dose_any_case :
  (∀ name name' age w,
     Str.lower name = Str.lower name' →
     recommend_dose name' age w
     = (let! rep := recommend_dose name age w in Ok (with_name name' rep)))
  ∧ (∀ name, Str.lower (Str.lower name) = Str.lower name).
Proof.
  split; [|exact NameFacts.lower_idem].
  intros name name' age w H. unfold recommend_dose. rewrite <- H.
  destruct (medications !! Str.lower name) as [[|r0 rules]|];
    try reflexivity.
  destruct (first_rule age (r0 :: rules)) as [r|]; [|reflexivity].
  set (weight := match w with None => _ | Some x => x end).
  destruct (calculate_dose (dose r) weight age) as [d|e]; [|reflexivity].
  cbn [bind].
  destruct (adjust_max_for_age_weight _ age weight) as [m|e]; reflexivity.
Qed.

Lemma recommend_dose_any_case_witness :
  recommend_dose "IBUPROFEN" (F.of_Z 8) None
  = (let! rep := recommend_dose "Ibuprofen" (F.of_Z 8) None in
     Ok (with_name "IBUPROFEN" rep)).
Proof.
  apply (proj1 recommend_dose_any_case). reflexivity.
Defined.

(** X20.  Alternatives are suggested for warfarin and for ibuprofen
    only, written in any case, and a name gets the alternatives of its
    lower-case form; every other name gets the empty list; and no
    suggested alternative is the drug itself. *)
Theorem suggest_alternatives_known :
  ∀ drug_name,
    (suggest_alternatives drug_name ≠ []
     ↔ Str.lower drug_name = "warfarin" ∨ Str.lower drug_name = "ibuprofen")
    ∧ suggest_alternatives (Str.lower drug_name)
      = suggest_alternatives drug_name
    ∧ Forall (fun alt => alt ≠ Str.lower drug_name)
        (suggest_alternatives drug_name).
Proof.
  intros d. unfold suggest_alternatives.
  rewrite NameFacts.lower_idem, NameFacts.lookup_alternatives.
  destruct (decide (Str.lower d = "warfarin")) as [E|H1].
  - rewrite E. split; [split; [auto | discriminate]|].
    split; [reflexivity|]. repeat constructor; discriminate.
  - destruct (decide (Str.lower d = "ibuprofen")) as [E|H2].
    + rewrite E. split; [split; [auto | discriminate]|].
      split; [reflexivity|]. repeat constructor; discriminate.
    + split; [|split; [reflexivity | constructor]].
      split; [contradiction | intros [?|?]; contradiction].
Qed.

(** ** What a recommendation is made of *)

Module ReplyFacts.
Import TableFacts.

Lemma ltb_leb_trans (a b c : F.float) :
  F.ltb a b = true → F.leb b c = true → F.ltb a c = true.
Proof.
  intros Hab Hbc. destruct (F.ltb a c) eqn:E; [reflexivity|].
  rewrite (FFacts.leb_not_ltb b a) in Hab; [discriminate|].
  apply FFacts.leb_trans with c; [exact Hbc|].
  apply ltb_false_leb;
    [now apply ltb_refl_l with b | now apply leb_refl_r with b | exact E].
Qed.

End ReplyFacts.

(** X21.  A recommendation is only given for a drug of the table and an
    age from 0 to below 200 years; it repeats the name and the age it
    was asked for, and its dosage and its maximum per day are what the
    dose calculator and the maximum adjuster return for the texts of one
    rule of the drug, whose band holds the age, at the age and the
    weight of the recommendation. *)
Theorem recommendation_from_rule :
  ∀ name age w rec,
    recommend_dose name age w = Ok (Recommendation rec) →
    drug rec = name ∧ age_years rec = age
    ∧ F.leb (F.of_Z 0) age = true ∧ F.ltb age (F.of_Z 200) = true
    ∧ ∃ rules r,
        medications !! Str.lower name = Some rules
        ∧ r ∈ rules ∧ in_band age r = true
        ∧ calculate_dose (dose r) (weight_kg rec) age = Ok (dosage rec)
        ∧ adjust_max_for_age_weight (default "" (max r)) age (weight_kg rec)
          = Ok (max_per_day rec).
Proof.
  intros name age w rec H.
  apply BandFacts.recommendation_fields in H
    as (Hn & Ha & _ & rules & r & Hk & Hr & Hd & Hm).
  apply RecommendFacts.first_rule_Some in Hr as [Hin Hband].
  destruct (BandFacts.table_bands_rule _ rules Hk) as (_ & _ & Hw & _).
  unfold bands_within in Hw. rewrite forallb_forall in Hw.
  pose proof (Hw r (proj1 (list_elem_of_In _ _) Hin)) as Hr.
  apply andb_prop in Hr as [Hmin Hmax].
  pose proof Hband as Hb. unfold in_band in Hb.
  apply andb_prop in Hb as [Hlo Hhi].
  split; [exact Hn|]. split; [exact Ha|].
  split; [now apply FFacts.leb_trans with (age_min r)|].
  split; [now apply ReplyFacts.ltb_leb_trans with (age_max r)|].
  exists rules, r. auto.
Qed.

Lemma recommendation_from_rule_witness :
  drug (MkRecommendation "Aspirin" (F.of_Z 70) (F.of_Z 60) "75 mg once daily"
          "3.0 g/day (adjusted)") = "Aspirin"
  ∧ age_years (MkRecommendation "Aspirin" (F.of_Z 70) (F.of_Z 60)
                 "75 mg once daily" "3.0 g/day (adjusted)") = F.of_Z 70
  ∧ F.leb (F.of_Z 0) (F.of_Z 70) = true
  ∧ F.ltb (F.of_Z 70) (F.of_Z 200) = true
  ∧ ∃ rules r,
      medications !! Str.lower "Aspirin" = Some rules
      ∧ r ∈ rules ∧ in_band (F.of_Z 70) r = true
      ∧ calculate_dose (dose r)
          (weight_kg (MkRecommendation "Aspirin" (F.of_Z 70) (F.of_Z 60)
                        "75 mg once daily" "3.0 g/day (adjusted)"))
          (F.of_Z 70)
        = Ok (dosage (MkRecommendation "Aspirin" (F.of_Z 70) (F.of_Z 60)
                        "75 mg once daily" "3.0 g/day (adjusted)"))
      ∧ adjust_max_for_age_weight (default "" (max r)) (F.of_Z 70)
          (weight_kg (MkRecommendation "Aspirin" (F.of_Z 70) (F.of_Z 60)
                        "75 mg once daily" "3.0 g/day (adjusted)"))
        = Ok (max_per_day
                (MkRecommendation "Aspirin" (F.of_Z 70) (F.of_Z 60)
                   "75 mg once daily" "3.0 g/day (adjusted)")).
Proof.
  apply (recommendation_from_rule "Aspirin" (F.of_Z 70) (Some (F.of_Z 60))).
  vm_compute. reflexivity.
Defined.

(** ** The dose texts of the table *)

Module TableDose.
Import StrFacts ReFacts PatFacts.

Lemma starts_with_dose_spec (s : string) (weight age : F.float) :
  starts_with_dose s = true → replaces_dose s weight age.
Proof.
  unfold starts_with_dose.
  destruct (Re.match_at per_kg_re 0 s) as [m|] eqn:E.
  - intros _. left.
    apply match_at_sound in E as (w & Hs & Hw & _).
    apply per_kg_lang_inv in Hw
      as (lo & hi & ws & u & vlo & vhi & -> & Hlo & Hhi & Hws & Hu).
    rewrite !app_assoc in Hs. subst s.
    exists lo, hi, ws, u, (Re.m_rest m), vlo, vhi.
    repeat (split; [assumption || reflexivity|]).
    now apply StartDose.per_kg_at_start.
  - destruct (Re.search per_kg_re s) as [m|] eqn:Eno; [discriminate|].
    destruct (Re.match_at range_re 0 s) as [m|] eqn:Er; [|discriminate].
    intros _. right. apply search_None_iff in Eno.
    apply match_at_sound in Er as (w & Hs & Hw & _).
    apply RangeFacts.range_lang_inv in Hw
      as (lo & hi & ws & u & -> & Hlo & Hhi & Hws & Hu).
    rewrite !app_assoc in Hs. subst s.
    assert (int_of_string lo = Ok (Str.digits_value 0 lo)) as Hvlo
      by (unfold int_of_string; now rewrite Hlo).
    assert (match hi with
            | Some h =>
                int_of_string h
                = Ok (match hi with
                      | Some h => Str.digits_value 0 h
                      | None => Str.digits_value 0 lo
                      end)
            | None =>
                match hi with
                | Some h => Str.digits_value 0 h
                | None => Str.digits_value 0 lo
                end = Str.digits_value 0 lo
            end) as Hvhi.
    { destruct hi as [h|]; [|reflexivity].
      unfold int_of_string. now rewrite (Hhi h eq_refl). }
    exists lo, hi, ws, u, (Re.m_rest m), (Str.digits_value 0 lo),
      (match hi with
       | Some h => Str.digits_value 0 h
       | None => Str.digits_value 0 lo
       end).
    repeat (split; [assumption || reflexivity|]).
    now apply StartDose.range_at_start.
Qed.

(** Every dose text of the table starts with its dose. *)
Lemma table_starts_with_dose :
  forallb (fun kv => forallb (fun r => starts_with_dose (dose r)) (snd kv))
    medications_items = true.
Proof. vm_compute. reflexivity. Qed.

End TableDose.

(** X22.  Every dose text of the table begins with its dose, and for
    every rule of the table, weight and age the dose calculator returns
    the new dose followed by exactly the rest of the rule's text: the
    scaled dose for a per-kilogram dose, and the chosen dose and the
    unit for an absolute dose. *)
Theorem table_dose_replaced :
  ∀ k rules r weight age,
    medications !! k = Some rules → r ∈ rules →
    replaces_dose (dose r) weight age.
Proof.
  intros k rules r weight age Hk Hr.
  apply TableDose.starts_with_dose_spec.
  unfold medications in Hk.
  apply elem_of_list_to_map_2, list_elem_of_In in Hk.
  pose proof TableDose.table_starts_with_dose as H.
  rewrite forallb_forall in H. specialize (H _ Hk). cbn [snd] in H.
  rewrite forallb_forall in H. apply H. now apply list_elem_of_In.
Qed.

Lemma table_dose_replaced_witness :
  replaces_dose "500 mg day 1, then 250 mg daily" (F.of_Z 70) (F.of_Z 30).
Proof.
  apply (table_dose_replaced "azithromycin"
           [ rule (F.of_Z 1) (F.of_Z 12) "10 mg/kg once daily" "500 mg";
             rule (F.of_Z 12) (F.of_Z 200) "500 mg day 1, then 250 mg daily"
               "1.5 g/course" ]
           (rule (F.of_Z 12) (F.of_Z 200) "500 mg day 1, then 250 mg daily"
              "1.5 g/course")).
  - reflexivity.
  - right. left.
Defined.
